(** * LovecraftTextGen: preprocessing and generation, embedded and verified

  A shallow embedding of the two notebooks of the repository:
  - the preprocessing notebook ([token_lookup], [clean_text],
    [filter_text], [create_lookup_tables], [preprocess_and_save_data]);
  - the generation notebook, [3Generate_Text.ipynb] ([generate]).

  Python values are modelled as follows.
  - [str] is [string], for ASCII text: a character is an [ascii], and
    [str.lower], [str.split] and [str.isspace] are what they are on the
    characters below 128 ([str.lower] acts on the letters A-Z only). On
    other characters Python does more (it lower-cases accented capitals and
    splits at no-break spaces, say).
  - [dict] (and [Counter]) is an insertion-ordered association list with
    unique keys: iteration order is part of what the code relies on
    ([clean_text] and [generate] iterate over [items()], [sorted] breaks
    ties by the order of the counter).
  - the network is opaque: it is the function that maps the current window
    to the next-word probabilities [p] (what [F.softmax] returns for the
    output of the network), given as rationals.
  - word ids are natural numbers; the window of [generate] is an array of
    machine integers, which the embedding follows for ids that fit it
    ([fits_window]).
  - [os.path] is followed on the arguments for which [posixpath] and
    [ntpath] agree ([portable]). *)

From Stdlib Require Import Ascii String QArith Qcanon.
From stdpp Require Import base decidable option numbers list sorting strings gmap.

Local Open Scope stdpp_scope.

(** ** Python built-ins used by the notebooks *)
Module Py.

(** *** Strings *)

(** [c.isspace()] for an ASCII character: TAB, LF, VT, FF, CR, the four
    separators FS, GS, RS, US, and the space. *)
Definition isspace (c : ascii) : bool :=
  let n := N_of_ascii c in
  ((9 <=? n) && (n <=? 13) || (28 <=? n) && (n <=? 32))%N.

Definition lower_char (c : ascii) : ascii :=
  let n := N_of_ascii c in
  if ((65 <=? n) && (n <=? 90))%N then ascii_of_N (n + 32) else c.

(** [s.lower()], for ASCII text *)
Fixpoint lower (s : string) : string :=
  match s with
  | EmptyString => EmptyString
  | String c t => String (lower_char c) (lower t)
  end.

(** [c in s] for a character [c]. *)
Fixpoint has_char (c : ascii) (s : string) : bool :=
  match s with
  | EmptyString => false
  | String a t => bool_decide (a = c) || has_char c t
  end.

(** [c.islower()] for an ASCII character. *)
Definition islower (c : ascii) : bool :=
  let n := N_of_ascii c in ((97 <=? n) && (n <=? 122))%N.

(** [sep.join(ws)] *)
Fixpoint join (sep : string) (ws : list string) : string :=
  match ws with
  | [] => ""
  | [w] => w
  | w :: ws' => w +:+ sep +:+ join sep ws'
  end.

Definition cons_word (w : string) (ws : list string) : list string :=
  match w with
  | EmptyString => ws
  | _ => w :: ws
  end.

(** One right-to-left pass over the text: the result is the run of
    non-blank characters the text starts with (empty when it starts with
    white space) and the words that follow it. *)
Fixpoint split_scan (s : string) : string * list string :=
  match s with
  | EmptyString => (EmptyString, [])
  | String c t =>
      let '(w, ws) := split_scan t in
      if isspace c then (EmptyString, cons_word w ws) else (String c w, ws)
  end.

(** [s.split()]: the maximal runs of non-blank characters; never an empty
    word. *)
Definition split (s : string) : list string :=
  let '(w, ws) := split_scan s in cons_word w ws.

(** [s.replace("", new)]: [new] before every character and at the end. *)
Fixpoint replace_empty (new s : string) : string :=
  match s with
  | EmptyString => new
  | String c t => new +:+ String c (replace_empty new t)
  end.

(** The scan of [s.replace(old, new)] for a non-empty [old]: occurrences
    are found left to right and do not overlap. [skip] counts the
    characters of the occurrence just replaced that are still ahead. *)
Fixpoint replace_scan (old new : string) (skip : nat) (s : string) : string :=
  match s with
  | EmptyString => EmptyString
  | String c t =>
      match skip with
      | S k => replace_scan old new k t
      | O =>
          if String.prefix old s
          then new +:+ replace_scan old new (String.length old - 1) t
          else String c (replace_scan old new 0 t)
      end
  end.

(** [s.replace(old, new)] *)
Definition replace (old new s : string) : string :=
  match old with
  | EmptyString => replace_empty new s
  | _ => replace_scan old new 0 s
  end.

(** *** Dictionaries *)

Section dict.
Context {K V : Type} `{EqDecision K}.

(** A [dict]: the items in insertion order. *)
Definition dict : Type := list (K * V).

(** [d.get(k)]; [d[k]] raises [KeyError] where this is [None]. *)
Fixpoint dict_get (d : dict) (k : K) : option V :=
  match d with
  | [] => None
  | (k', v) :: d' => if decide (k' = k) then Some v else dict_get d' k
  end.

(** [d[k] = v]: a key already present keeps its place, a new key goes
    last. *)
Fixpoint dict_set (d : dict) (k : K) (v : V) : dict :=
  match d with
  | [] => [(k, v)]
  | (k', v') :: d' =>
      if decide (k' = k) then (k', v) :: d' else (k', v') :: dict_set d' k v
  end.

(** [del d[k]] (for a key that is there). *)
Definition dict_del (d : dict) (k : K) : dict :=
  filter (λ kv, kv.1 ≠ k) d.

(** [list(d)]: the keys in insertion order. *)
Definition keys (d : dict) : list K := d.*1.

(** [{k: v for k, v in items}] *)
Definition dict_of_items (items : list (K * V)) : dict :=
  foldl (λ d kv, dict_set d kv.1 kv.2) [] items.
End dict.
Global Arguments dict : clear implicits.

(** [counter[k] += 1], also for a key that is not there yet: a [Counter]
    reads a missing key as 0. *)
Definition incr {K} `{EqDecision K} (d : dict K nat) (k : K) : dict K nat :=
  dict_set d k (default 0 (dict_get d k) + 1).

(** [Counter(iterable)] *)
Definition Counter {K} `{EqDecision K} (l : list K) : dict K nat :=
  foldl incr [] l.

(** [enumerate(l)] *)
Definition enumerate {A} (l : list A) : list (nat * A) :=
  imap (λ i x, (i, x)) l.

(** [sorted(l, key=key, reverse=True)] and the order of [topk]: a stable
    sort in descending order of [key], for keys compared by [lt]. *)
Section sorted.
Context {A B : Type} (lt : relation B) `{!RelDecision lt} (key : A → B).

(** The insertion step: [x], which comes before all of [l] in the input,
    also goes before the elements of [l] that have the same key. *)
Fixpoint insert_desc (x : A) (l : list A) : list A :=
  match l with
  | [] => [x]
  | y :: l' =>
      if decide (lt (key x) (key y)) then y :: insert_desc x l'
      else x :: y :: l'
  end.

Fixpoint sorted_desc (l : list A) : list A :=
  match l with
  | [] => []
  | x :: l' => insert_desc x (sorted_desc l')
  end.
End sorted.

End Py.

(** ** The preprocessing notebook *)
Module Preprocess.
Import Py.

Definition token_lookup : dict string string :=
  let tokens := [] in
  let tokens := dict_set tokens "." " <PERIOD> " in
  let tokens := dict_set tokens "!" " <EXCLAMATION_MARK> " in
  let tokens := dict_set tokens "?" " <QUESTION_MARK> " in
  let tokens := dict_set tokens "," " <COMMA> " in
  let tokens := dict_set tokens (String "034" "") " <QUOTATION_MARK> " in
  let tokens := dict_set tokens ";" " <SEMICOLON> " in
  let tokens := dict_set tokens "(" " <LEFT_PAREN> " in
  let tokens := dict_set tokens ")" " <RIGHT_PAREN> " in
  let tokens := dict_set tokens "-" " <DASH> " in
  let tokens := dict_set tokens "???" " <DASH> " in
  let tokens := dict_set tokens (String "010" "") " <NEW_LINE> " in
  tokens.

Definition clean_text (text : string) (special_tokens_dict : dict string string)
  : string :=
  (* Iterate through all tokens we want to remove *)
  let text := foldl (λ text kv, replace kv.1 kv.2 text) text special_tokens_dict in
  (* Reduce white space to single space *)
  let text := join " " (split text) in
  (* Reduce to lower case *)
  lower text.

(** The threshold of [filter_text], the 3 of its [cnt > 3]. *)
Definition min_frequency : nat := 3.

Definition filter_text (text : string) : list string :=
  let tokens := split text in
  let word_counter := Counter tokens in
  let trimmed_words := (filter (λ wc, min_frequency < wc.2) word_counter).*1 in
  let trimmed_tokens := filter (λ t, t ∈ trimmed_words) tokens in
  trimmed_tokens.

Definition create_lookup_tables (text : list string)
  : dict string nat * dict nat string :=
  (* Counter for all words *)
  let word_counter := Counter text in
  (* Need to make sure that our filler text is included with our vocabulary *)
  let word_counter := incr word_counter "<PAD>" in
  (* Sort words by frequency *)
  let sorted_words :=
    sorted_desc lt (λ w, default 0 (dict_get word_counter w)) (keys word_counter) in
  (* Create int_to_vocab, vocab_to_int *)
  let int_to_vocab := dict_of_items (enumerate sorted_words) in
  let vocab_to_int := dict_of_items ((λ iw, (iw.2, iw.1)) <$> int_to_vocab) in
  (vocab_to_int, int_to_vocab).

(** [preprocess_and_save_data] from the text that [load_directory] returns
    to the tuple that is pickled; [None] is the [KeyError] of
    [vocab_to_int[word]]. *)
Definition preprocess_and_save_data (all_text_data : string)
  : option (list nat * dict string nat * dict nat string * dict string string) :=
  let special_tokens_dict := token_lookup in
  let cleaned_text := clean_text all_text_data special_tokens_dict in
  let tokens := filter_text cleaned_text in
  let '(vocab_to_int, int_to_vocab) := create_lookup_tables tokens in
  int_text ← mapM (dict_get vocab_to_int) tokens;
  Some (int_text, vocab_to_int, int_to_vocab, special_tokens_dict).

End Preprocess.

(** ** The generation notebook *)
Module Generate.
Import Py.

(** What a call can raise. *)
Inductive error : Set :=
  | IndexError    (* [current_seq[-1][-1]] on a window of length 0; [a[idx]] *)
  | KeyError      (* [int_to_vocab[...]] for an id that is no key *)
  | RuntimeError  (* [p.topk(top_k)] with fewer than [top_k] entries *)
  | ValueError.   (* [np.random.choice]: weights it rejects *)

Definition result (A : Type) : Type := error + A.

Definition ret {A} (x : A) : result A := inr x.

Definition bind {A B} (m : result A) (f : A → result B) : result B :=
  match m with
  | inl e => inl e
  | inr x => f x
  end.

Notation "x ←! m ; k" := (bind m (λ x, k))
  (at level 20, m at level 100, k at level 200, right associativity,
   only parsing).
Notation "' pat ←! m ; k" := (bind m (λ x, match x with pat => k end))
  (at level 20, pat pattern, m at level 100, k at level 200,
   right associativity, only parsing).

Definition lookup_or {A} (e : error) (o : option A) : result A :=
  match o with
  | Some x => inr x
  | None => inl e
  end.

(** [p.topk(k)] for a row [p]: the [k] largest entries in descending order,
    with their indices. Among equal entries the lower index is taken first
    (torch leaves that order open). *)
Definition topk (p : list Qc) (k : nat) : result (list Qc * list nat) :=
  if decide (k ≤ length p) then
    let top := take k (sorted_desc Qclt snd (enumerate p)) in
    ret (top.*2, top.*1)
  else inl RuntimeError.

(** [p.sum()] *)
Definition sum (p : list Qc) : Qc := foldr Qcplus 0%Qc p.

(** [p.cumsum()] *)
Fixpoint cumsum_from (acc : Qc) (p : list Qc) : list Qc :=
  match p with
  | [] => []
  | x :: p' => (acc + x)%Qc :: cumsum_from (acc + x)%Qc p'
  end.

Definition cumsum (p : list Qc) : list Qc := cumsum_from 0%Qc p.

(** [cdf.searchsorted(u, side='right')] on an ascending [cdf]: the number of
    entries that are at most [u]. *)
Fixpoint searchsorted_right (cdf : list Qc) (u : Qc) : nat :=
  match cdf with
  | [] => 0
  | c :: cdf' => if decide (c ≤ u)%Qc then S (searchsorted_right cdf' u) else 0
  end.

(** [np.random.choice(a, p=p)] for the uniform draw [u] of the generator, a
    number in [0, 1): the weights are checked (as many as [a] has elements,
    none negative, summing to 1), then the draw is located in their
    cumulative sums. *)
Definition random_choice (a : list nat) (p : list Qc) (u : Qc) : result nat :=
  if decide (a = []) then inl ValueError
  else if decide (length p ≠ length a) then inl ValueError
  else if decide (Exists (λ x, x < 0)%Qc p) then inl ValueError
  else if decide (sum p ≠ 1%Qc) then inl ValueError
  else
    let cdf := cumsum p in
    let cdf := (λ c, c / default 1 (last cdf))%Qc <$> cdf in
    let idx := searchsorted_right cdf u in
    lookup_or IndexError (a !! idx).

(** [np.roll(current_seq, -1, 1)] on the one row of the window. *)
Definition roll_left (current_seq : list nat) : list nat :=
  match current_seq with
  | [] => []
  | x :: rest => rest ++ [x]
  end.

(** [current_seq[-1][-1] = v] *)
Definition set_last (current_seq : list nat) (v : nat) : result (list nat) :=
  match current_seq with
  | [] => inl IndexError
  | _ => ret (<[length current_seq - 1 := v]> current_seq)
  end.

Definition top_k : nat := 5.

Section generate.
(** The global [sequence_length] of the notebook. *)
Variable sequence_length : nat.
(** The network as [generate] uses it: from the window to the next-word
    probabilities [p]. *)
Variable rnn : list nat → list Qc.
(** The uniform draws of numpy's generator, in the order they are made. *)
Variable rng : nat → Qc.
Variable int_to_vocab : dict nat string.
Variable token_dict : dict string string.

(** The state of the loop: the window and the tokens generated so far. *)
Definition state : Type := list nat * list string.

(** One pass through the body of the loop, the [i]-th. *)
Definition generate_step (i : nat) (st : state) : result state :=
  let '(current_seq, predicted) := st in
  (* get the next word probabilities *)
  let p := rnn current_seq in
  (* use top_k sampling to get the index of the next word *)
  '(p, top_i) ←! topk p top_k;
  (* select the likely next word index with some element of randomness;
     [p/p.sum()] for a zero sum has no finite entry (0/0 and x/0), and
     [np.random.choice] raises [ValueError] for weights that are not
     numbers or do not sum to 1 *)
  let s := sum p in
  if decide (s = 0%Qc) then inl ValueError else
  word_i ←! random_choice top_i ((λ x, x / s)%Qc <$> p) (rng i);
  (* retrieve that word from the dictionary *)
  word ←! lookup_or KeyError (dict_get int_to_vocab word_i);
  let predicted := predicted ++ [word] in
  (* the generated word becomes the next "current sequence" *)
  let current_seq := roll_left current_seq in
  current_seq ←! set_last current_seq word_i;
  ret (current_seq, predicted).

(** [for _ in range(predict_len)], from pass [i] on. *)
Fixpoint generate_loop (predict_len i : nat) (st : state) : result state :=
  match predict_len with
  | O => ret st
  | S n => st' ←! generate_step i st; generate_loop n (S i) st'
  end.

(** The state before the first pass, for ids that fit the window
    ([fits_window]): storing one that does not raises [OverflowError], which
    the embedding leaves out. *)
Definition generate_init (prime_id pad_value : nat) : result state :=
  (* create a sequence (batch_size=1) with the prime_id *)
  let current_seq := replicate sequence_length pad_value in
  current_seq ←! set_last current_seq prime_id;
  word ←! lookup_or KeyError (dict_get int_to_vocab prime_id);
  ret (current_seq, [word]).

(** The window and the tokens when the loop is left. *)
Definition generate_state (prime_id pad_value predict_len : nat) : result state :=
  st ←! generate_init prime_id pad_value;
  generate_loop predict_len 0 st.

(** The text made of the tokens: the end of [generate]. *)
Definition detokenize (predicted : list string) : string :=
  let gen_sentences := join " " predicted in
  (* Replace punctuation tokens *)
  let gen_sentences :=
    foldl (λ gen_sentences kt,
             let ending :=
               if bool_decide (kt.1 ∈ [String "010" ""; "("; String "034" ""])
               then " " else "" in
             replace (" " +:+ lower kt.2) kt.1 gen_sentences)
          gen_sentences token_dict in
  let gen_sentences := replace (String "010" " ") (String "010" "") gen_sentences in
  let gen_sentences := replace "( " "(" gen_sentences in
  gen_sentences.

Definition generate (prime_id pad_value predict_len : nat) : result string :=
  '(_, predicted) ←! generate_state prime_id pad_value predict_len;
  ret (detokenize predicted).

End generate.
End Generate.

Import Py Preprocess Generate.

(** * Definitions for the statements *)

(** ** Texts and tokens *)

(** A token: not empty, no white space in it. *)
Definition nospace (w : string) : Prop :=
  ∀ c, has_char c w = true → isspace c = false.

Definition wordlike (w : string) : Prop := w ≠ "" ∧ nospace w.

(** The loop of [clean_text] over the items of the dictionary. *)
Definition substitute (text : string) (P : dict string string) : string :=
  foldl (λ text kv, replace kv.1 kv.2 text) text P.

(** Every character of [k] is a character that [text] does not have. *)
Fixpoint chars_outside (k text : string) : bool :=
  match k with
  | EmptyString => true
  | String c k' => negb (has_char c text) && chars_outside k' text
  end.

(** [k] has a character that is neither the space nor a lower-case
    letter: one that neither [join] nor [lower] can produce. *)
Fixpoint has_mark (k : string) : bool :=
  match k with
  | EmptyString => false
  | String c k' =>
      negb (bool_decide (c = " "%char)) && negb (islower c) || has_mark k'
  end.

(** ASCII upper-case letters. *)
Definition isupper (c : ascii) : bool :=
  let n := N_of_ascii c in ((65 <=? n) && (n <=? 90))%N.

(** ** Counting and order *)

(** How often [t] occurs in [l]. *)
Definition occurrences {K} `{EqDecision K} (t : K) (l : list K) : nat :=
  length (filter (λ x, x = t) l).

(** The place where [x] is first met in [l] (the length of [l] when it is
    not met). *)
Fixpoint first_index {A} `{EqDecision A} (x : A) (l : list A) : nat :=
  match l with
  | [] => 0
  | y :: l' => if decide (y = x) then 0 else S (first_index x l')
  end.

(** The order of [sorted(l, key=key, reverse=True)]: the greater key first,
    and for equal keys the element that [l] has first. *)
Definition precedes {A} `{EqDecision A} (key : A → nat) (l : list A) (a b : A)
  : Prop :=
  key b < key a ∨ (key a = key b ∧ first_index a l < first_index b l).

(** The words with the padding token, as they are counted. *)
Definition counted (text : list string) : list string := text ++ ["<PAD>"].

(** [sorted_words] of [create_lookup_tables]. *)
Definition sorted_words (text : list string) : list string :=
  sorted_desc lt (λ w, occurrences w (counted text)) (keys (Counter (counted text))).

(** ** The scenario of the specification *)

(** A distribution of [n] entries that is 1 at [m] and 0 elsewhere. *)
Definition one_hot (n m : nat) : list Qc := <[m := 1%Qc]> (replicate n 0%Qc).

(** The predictor that is sure of id 2, over [n] ids. *)
Definition stub (n : nat) : list nat → list Qc := λ _, one_hot n 2.

Definition vocabulary : dict nat string :=
  [(0, "<PAD>"); (1, "the"); (2, "cat"); (3, "sat")].

(** ** The text in the words of the specification *)

(** The cosmetic fix-up, no space after the character [c]. *)
Fixpoint drop_space_after (c : ascii) (s : string) : string :=
  match s with
  | EmptyString => EmptyString
  | String a t =>
      match t with
      | String b t' =>
          if decide (a = c ∧ b = " "%char)
          then String a (drop_space_after c t')
          else String a (drop_space_after c t)
      | EmptyString => String a EmptyString
      end
  end.

(** The specification's own operations on text, written without the
    built-ins of [Py]. *)

(** The tokens with a single space between one and the next. *)
Definition spaced (tokens : list string) : string :=
  match tokens with
  | [] => ""
  | t :: rest => foldl (λ text w, text +:+ " " +:+ w) t rest
  end.

(** The character that [to] has where [from] has [c]; [c] itself when
    [from] does not have it. *)
Fixpoint translate (from to : string) (c : ascii) : ascii :=
  match from, to with
  | String a from', String b to' =>
      if decide (c = a) then b else translate from' to' c
  | _, _ => c
  end.

Definition lowercase_char : ascii → ascii :=
  translate "ABCDEFGHIJKLMNOPQRSTUVWXYZ" "abcdefghijklmnopqrstuvwxyz".

Fixpoint lowercase (s : string) : string :=
  match s with
  | EmptyString => EmptyString
  | String c t => String (lowercase_char c) (lowercase t)
  end.

(** [s] without its first [n] characters. *)
Fixpoint after (n : nat) (s : string) : string :=
  match n, s with
  | S n', String _ t => after n' t
  | _, _ => s
  end.

(** Every occurrence of [old], from the left and not overlapping, replaced
    by [new]; [fuel] bounds the number of steps, and the length of the text
    is enough for a pattern that is not empty. *)
Fixpoint replace_all_fuel (fuel : nat) (old new s : string) : string :=
  match fuel, s with
  | S fuel', String c t =>
      if String.prefix old s
      then new +:+ replace_all_fuel fuel' old new (after (String.length old) s)
      else String c (replace_all_fuel fuel' old new t)
  | _, _ => s
  end.

Definition replace_all (old new s : string) : string :=
  replace_all_fuel (String.length s) old new s.

(** [s] without the spaces at its two ends. *)
Fixpoint ltrim (s : string) : string :=
  match s with
  | String c t => if decide (c = " "%char) then ltrim t else s
  | EmptyString => EmptyString
  end.

Fixpoint rtrim (s : string) : string :=
  match s with
  | EmptyString => EmptyString
  | String c t =>
      match rtrim t with
      | EmptyString => if decide (c = " "%char) then EmptyString else String c ""
      | t' => String c t'
      end
  end.

Definition trim (s : string) : string := rtrim (ltrim s).

(** [detokenize(tokens, punctuationMap)] in the words of the specification:
    join the tokens with single spaces, then for every punctuation entry
    replace each space followed by the lower-cased placeholder with the
    punctuation, then take out the space after a newline and after a left
    parenthesis. An entry is a punctuation string with its placeholder. *)
Definition detokenize_spec (tokens : list string)
    (punctuationMap : list (string * string)) : string :=
  let text := spaced tokens in
  let text :=
    foldl (λ text entry,
             let '(punctuation, placeholder) := entry in
             replace_all (" " +:+ lowercase placeholder) punctuation text)
          text punctuationMap in
  drop_space_after "(" (drop_space_after "010" text).

(** The punctuation map of the specification that a dictionary of the code
    stands for. In the specification [clean] puts the placeholder between
    spaces; the dictionary of [token_lookup] has these spaces in its items:
    the placeholder is the item without them. *)
Definition punctuation_map (token_dict : dict string string)
  : list (string * string) :=
  (λ entry, (entry.1, trim entry.2)) <$> token_dict.

(** ** Punctuation maps *)

(** A punctuation character of ASCII text: below 128, and neither a
    letter, nor a digit, nor the space. These are the punctuation marks and
    the control characters, the newline of [token_lookup] among them. *)
Definition ispunct (c : ascii) : bool :=
  let n := N_of_ascii c in
  ((n <? 128)
   && negb ((48 <=? n) && (n <=? 57) || (65 <=? n) && (n <=? 90)
            || (97 <=? n) && (n <=? 122))
   && negb (n =? 32))%N.

Fixpoint all_punct (k : string) : bool :=
  match k with
  | EmptyString => true
  | String c k' => ispunct c && all_punct k'
  end.

(** A key of a punctuation map: one punctuation character or more. *)
Definition punctuation_key (k : string) : bool :=
  negb (bool_decide (k = "")) && all_punct k.

(** ** The probabilities and the ids of [generate] *)


(** A predictor with five different positive probabilities, which sum to 1;
    the greatest is that of id 3. *)
Definition peaked : list nat → list Qc :=
  λ _, [Q2Qc (1 # 15); Q2Qc (2 # 15); Q2Qc (1 # 5); Q2Qc (1 # 3); Q2Qc (4 # 15)].

(** An id that the window can hold. [np.full] makes the window an array of
    numpy's default integer type for a pad id that fits it (64 bits wide; 32
    on Windows before numpy 2), and storing an id that does not fit raises
    [OverflowError]: the embedding follows the code for ids below 2^31. *)
Definition fits_window (id : nat) : Prop := (Z.of_nat id < 2 ^ 31)%Z.

(** ** File names *)

(** A path on which [os.path] does the same on every platform: it has no
    backslash and no colon, which [ntpath] takes for a separator and for the
    end of a drive, and does not start with a slash, as the UNC paths of
    [ntpath] do. *)
Definition portable (p : string) : bool :=
  negb (has_char "092" p) && negb (has_char ":" p) && negb (String.prefix "/" p).

(** * The rest of the notebooks *)

(** ** Files: [load_directory] and the file name of [load_model] *)
Module Files.
Import Py.

(** [s.endswith(suffix)] *)
Fixpoint endswith (s suffix : string) : bool :=
  bool_decide (s = suffix) ||
  match s with
  | EmptyString => false
  | String _ t => endswith t suffix
  end.

(** [load_directory]. The directory is given as [os.listdir] lists it: the
    names, each with the contents that [load_data] reads from that file. *)
Definition load_directory (data_dir : list (string * string)) : string :=
  (* Relevant files *)
  let text_files := filter (λ f, endswith f.1 ".txt" = true) data_dir in
  (* Combine all text data into one string *)
  let all_text_data := join " " (snd <$> text_files) in
  all_text_data.

(** [s[n:]] and [s[:n]] *)
Fixpoint str_drop (n : nat) (s : string) : string :=
  match n, s with
  | S n', String _ t => str_drop n' t
  | _, _ => s
  end.

Fixpoint str_take (n : nat) (s : string) : string :=
  match n, s with
  | S n', String c t => String c (str_take n' t)
  | _, _ => EmptyString
  end.

(** [s.rfind(c)] for a character; [None] is the -1 of Python. *)
Fixpoint rfind (c : ascii) (s : string) : option nat :=
  match s with
  | EmptyString => None
  | String a t =>
      match rfind c t with
      | Some i => Some (S i)
      | None => if decide (a = c) then Some 0 else None
      end
  end.

(** Every character of [s] is [c]. *)
Fixpoint only_char (c : ascii) (s : string) : bool :=
  match s with
  | EmptyString => true
  | String a t => bool_decide (a = c) && only_char c t
  end.

(** [os.path.basename(p)]: what follows the last slash. This is
    [posixpath]; [ntpath] does the same on a [portable] path. *)
Definition basename (p : string) : string :=
  match rfind "/" p with
  | Some i => str_drop (S i) p
  | None => p
  end.

(** [os.path.splitext(p)]: the extension starts at the last dot, when that
    dot comes after the last slash and after a character of the file name
    that is no dot. This is [posixpath]; [ntpath] does the same on a
    [portable] path. *)
Definition splitext (p : string) : string * string :=
  match rfind "." p with
  | None => (p, EmptyString)
  | Some dotIndex =>
      let filenameIndex := from_option S 0 (rfind "/" p) in
      let name := str_take (dotIndex - filenameIndex) (str_drop filenameIndex p) in
      if bool_decide (filenameIndex ≤ dotIndex) && negb (only_char "." name)
      then (str_take dotIndex p, str_drop dotIndex p)
      else (p, EmptyString)
  end.

(** The [save_filename] that [load_model] passes to [torch.load]. *)
Definition save_filename (filename : string) : string :=
  (splitext (basename filename)).1 +:+ ".pt".

End Files.

(** ** The cells of the generation notebook after [generate] *)
Module Notebook.
Import Py Generate.

Definition token_lookup : dict string string :=
  let tokens := [] in
  let tokens := dict_set tokens " <period>" "." in
  let tokens := dict_set tokens " <exclamation_mark>" "!" in
  let tokens := dict_set tokens " <question_mark>" "?" in
  let tokens := dict_set tokens " <comma>" "," in
  let tokens := dict_set tokens " <quotation_mark>" (String "034" "") in
  let tokens := dict_set tokens " <semicolon>" ";" in
  let tokens := dict_set tokens " <left_paren>" "(" in
  let tokens := dict_set tokens " <right_paren>" ")" in
  let tokens := dict_set tokens " <dash>" "-" in
  let tokens := dict_set tokens " <new_line>" (String "010" "") in
  tokens.

Definition clean_text (text : string) : string :=
  (* Iterate through all tokens we want to remove *)
  let tokens := token_lookup in
  let text := foldl (λ text kv, replace kv.1 kv.2 text) text tokens in
  (* Reduce to lower case to reduce complexity of words *)
  lower text.

Definition pad_word : string := "<PAD>".

(** The last cell: the script that is printed. [sequence_length],
    [gen_length] and [prime_word] are the variables the cell sets (20, 400
    and ['there'] in the notebook as it is). *)
Definition generated_script
    (sequence_length gen_length : nat) (prime_word : string)
    (trained_rnn : list nat → list Qc) (rng : nat → Qc)
    (vocab_to_int : dict string nat) (int_to_vocab : dict nat string)
    (token_dict : dict string string) : result string :=
  prime_id ←! lookup_or KeyError (dict_get vocab_to_int prime_word);
  pad_value ←! lookup_or KeyError (dict_get vocab_to_int pad_word);
  generated_script ←!
    generate sequence_length trained_rnn rng int_to_vocab token_dict
      prime_id pad_value gen_length;
  ret (clean_text generated_script).

End Notebook.

(** ** Definitions for the statements about them *)

(** The tokens that [preprocess_and_save_data] encodes. *)
Definition corpus_tokens (all_text_data : string) : list string :=
  filter_text (clean_text all_text_data token_lookup).

(** The character [a] is followed by the character [b] somewhere in [s]. *)
Fixpoint adjacent (a b : ascii) (s : string) : bool :=
  match s with
  | String x (String y _ as t) => bool_decide (x = a ∧ y = b) || adjacent a b t
  | _ => false
  end.

(** A predictor that gives each of five ids the same probability. *)
Definition uniform5 : list nat → list Qc := λ _, replicate 5 (Q2Qc (1 # 5)).

Definition vocabulary5 : dict nat string :=
  enumerate ["<PAD>"; "the"; "cat"; "sat"; "mat"].

(** The text that the printed script has for a token after the first: the
    punctuation when the token is a placeholder of the generation notebook's
    [token_lookup], else a space and the token in lower case. *)
Definition render (t : string) : string :=
  default (String " " (lower t)) (dict_get Notebook.token_lookup (String " " t)).

(** [k] and [q] differ at a place that both have. *)
Fixpoint clash (k q : string) : bool :=
  match k, q with
  | String a k', String c q' => if decide (a = c) then clash k' q' else true
  | _, _ => false
  end.

(** A piece of a text in which the pattern [k] can only be found as a whole
    piece: the piece has no space, or is [k], or is a space followed by
    characters that are no spaces and differs from [k] at a place that both
    have. *)
Definition piece_ok (k q : string) : Prop :=
  has_char " " q = false ∨ q = k ∨
  ∃ body, q = String " " body ∧ has_char " " body = false ∧ clash k q = true.

(** The characters of a text, each as a text of its own. *)
Fixpoint chars (s : string) : list string :=
  match s with
  | EmptyString => []
  | String c t => String c "" :: chars t
  end.

(** The word of a placeholder: [<PERIOD>] for [ <PERIOD> ]. *)
Definition placeholder_word (v : string) : string := default "" (head (split v)).

(** * Properties *)

(** ** Characters and strings *)
Section strings.
Implicit Types (c a : ascii) (s t w old new : string) (ws : list string).

Lemma isspace_lower_char c : isspace (lower_char c) = isspace c.
Proof. by destruct c as [[] [] [] [] [] [] [] []]. Qed.

Lemma lower_char_idemp c : lower_char (lower_char c) = lower_char c.
Proof. by destruct c as [[] [] [] [] [] [] [] []]. Qed.

Lemma lower_char_fixes c a : lower_char a = c → islower c = false → a = c.
Proof.
  intros <-. by destruct a as [[] [] [] [] [] [] [] []].
Qed.

Lemma str_app_cons a s t : String a s +:+ t = String a (s +:+ t).
Proof. done. Qed.

Lemma str_app_nil_l s : "" +:+ s = s.
Proof. done. Qed.

Lemma str_app_nil_r s : s +:+ "" = s.
Proof. induction s; rewrite ?str_app_cons; by f_equal. Qed.

Lemma str_app_assoc s t w : (s +:+ t) +:+ w = s +:+ t +:+ w.
Proof. induction s; rewrite ?str_app_cons; by f_equal. Qed.

Lemma has_char_app c s t : has_char c (s +:+ t) = has_char c s || has_char c t.
Proof.
  induction s as [|a s IH]; [done|].
  rewrite str_app_cons. simpl. rewrite IH. by destruct (bool_decide (a = c)).
Qed.

Lemma lower_app s t : lower (s +:+ t) = lower s +:+ lower t.
Proof. induction s; rewrite ?str_app_cons; simpl; rewrite ?str_app_cons; by f_equal. Qed.

Lemma lower_idemp s : lower (lower s) = lower s.
Proof. induction s; simpl; [done|]. by rewrite lower_char_idemp, IHs. Qed.

Lemma has_char_lower c s :
  has_char c (lower s) = true → ∃ a, has_char a s = true ∧ lower_char a = c.
Proof.
  induction s as [|b s IH]; simpl; [done|].
  intros [Hb|Hc]%orb_true_iff.
  - exists b. apply bool_decide_eq_true in Hb.
    split; [|done]. by rewrite bool_decide_eq_true_2.
  - destruct (IH Hc) as (a & Ha & <-). exists a. by rewrite Ha, orb_true_r.
Qed.

(** *** [replace] *)

Lemma prefix_has_char c old s :
  String.prefix old s = true → has_char c old = true → has_char c s = true.
Proof.
  revert s. induction old as [|a old IH]; intros [|b s]; simpl; try done.
  destruct (ascii_dec a b) as [->|]; [|done].
  intros Hp [Hb|Hc]%orb_true_iff.
  - by rewrite Hb.
  - by rewrite (IH _ Hp Hc), orb_true_r.
Qed.

(** A pattern with a character that the text does not have is not found. *)
Lemma replace_absent c old new s :
  has_char c old = true → has_char c s = false → replace old new s = s.
Proof.
  intros Hold Hs.
  assert (replace old new s = replace_scan old new 0 s) as ->
    by by destruct old.
  induction s as [|b s IH]; [done|].
  cbn [replace_scan].
  destruct (String.prefix old (String b s)) eqn:Hp.
  - by rewrite (prefix_has_char c _ _ Hp Hold) in Hs.
  - simpl in Hs. apply orb_false_iff in Hs as [_ Hs]. by rewrite IH.
Qed.

Lemma replace_scan_no_new_char c old new k s :
  has_char c new = false → has_char c s = false →
  has_char c (replace_scan old new k s) = false.
Proof.
  intros Hnew. revert k.
  induction s as [|b s IH]; intros k Hs; [done|].
  simpl in Hs. apply orb_false_iff in Hs as [Hb Hs].
  cbn [replace_scan]. destruct k as [|k]; [|by apply IH].
  destruct (String.prefix old (String b s)).
  - by rewrite has_char_app, Hnew, IH.
  - simpl. by rewrite Hb, IH.
Qed.

Lemma replace_empty_no_new_char c new s :
  has_char c new = false → has_char c s = false →
  has_char c (replace_empty new s) = false.
Proof.
  intros Hnew. induction s as [|b s IH]; intros Hs; [done|].
  simpl in Hs. apply orb_false_iff in Hs as [Hb Hs].
  simpl. rewrite has_char_app, Hnew. simpl. by rewrite Hb, IH.
Qed.

(** Replacing brings in no character that neither the text nor the
    replacement has. *)
Lemma replace_no_new_char c old new s :
  has_char c new = false → has_char c s = false →
  has_char c (replace old new s) = false.
Proof.
  destruct old; [apply replace_empty_no_new_char|apply replace_scan_no_new_char].
Qed.

(** Replacing a character by a text without it removes the character. *)
Lemma replace_char_gone c new s :
  has_char c new = false → has_char c (replace (String c "") new s) = false.
Proof.
  intros Hnew. unfold replace.
  induction s as [|b s IH]; [done|].
  cbn [replace_scan String.prefix String.length].
  destruct (ascii_dec c b) as [->|Hne].
  - assert (String.prefix "" s = true) as -> by by destruct s.
    by rewrite has_char_app, Hnew.
  - simpl. rewrite IH, orb_false_r. apply bool_decide_eq_false. congruence.
Qed.

(** *** [split] and [join] *)

Lemma nospace_nil : nospace "".
Proof. by intros c. Qed.

Lemma nospace_cons a w : isspace a = false → nospace w → nospace (String a w).
Proof.
  intros Ha Hw c [->%bool_decide_eq_true|Hc]%orb_true_iff; [done|by apply Hw].
Qed.

Lemma nospace_inv a w : nospace (String a w) → isspace a = false ∧ nospace w.
Proof.
  intros Hw. split.
  - apply Hw. simpl. by rewrite bool_decide_eq_true_2.
  - intros c Hc. apply Hw. simpl. by rewrite Hc, orb_true_r.
Qed.

Lemma cons_word_cons w ws : w ≠ "" → cons_word w ws = w :: ws.
Proof. by destruct w. Qed.

Lemma Forall_cons_word (Q : string → Prop) w ws :
  (w ≠ "" → Q w) → Forall Q ws → Forall Q (cons_word w ws).
Proof. destruct w; [done|]. intros HQ ?. constructor; [by apply HQ|done]. Qed.

Lemma split_eq s : split s = cons_word (split_scan s).1 (split_scan s).2.
Proof. unfold split. by destruct (split_scan s). Qed.

Lemma split_scan_cons a s :
  split_scan (String a s)
  = if isspace a then ("", split s)
    else (String a (split_scan s).1, (split_scan s).2).
Proof. rewrite split_eq. simpl. by destruct (split_scan s), (isspace a). Qed.

Lemma split_scan_app w s :
  nospace w →
  split_scan (w +:+ s) = (w +:+ (split_scan s).1, (split_scan s).2).
Proof.
  induction w as [|a w IH]; intros Hw.
  - rewrite !str_app_nil_l. by destruct (split_scan s).
  - apply nospace_inv in Hw as [Ha Hw].
    rewrite !str_app_cons, split_scan_cons, Ha, IH by done. done.
Qed.

(** The words of [split] are tokens. *)
Lemma split_scan_wordlike s :
  nospace (split_scan s).1 ∧ Forall wordlike (split_scan s).2.
Proof.
  induction s as [|a s [IH1 IH2]]; [split; [apply nospace_nil|constructor]|].
  rewrite split_scan_cons. destruct (isspace a) eqn:Ha; simpl.
  - split; [apply nospace_nil|]. rewrite split_eq.
    by apply Forall_cons_word.
  - split; [by apply nospace_cons|done].
Qed.

Lemma split_wordlike s : Forall wordlike (split s).
Proof.
  rewrite split_eq. destruct (split_scan_wordlike s).
  by apply Forall_cons_word.
Qed.

(** Splitting the tokens joined by single spaces gives the tokens back. *)
Lemma split_join ws : Forall wordlike ws → split (join " " ws) = ws.
Proof.
  induction 1 as [|w ws [Hne Hw] Hws IH]; [done|].
  destruct ws as [|w' ws].
  - simpl. rewrite <-(str_app_nil_r w) at 1.
    rewrite split_eq, split_scan_app by done. simpl.
    by rewrite str_app_nil_r, cons_word_cons.
  - change (join " " (w :: w' :: ws)) with (w +:+ String " " (join " " (w' :: ws))).
    rewrite split_eq, split_scan_app, split_scan_cons by done.
    change (isspace " ") with true. cbn [fst snd].
    by rewrite str_app_nil_r, cons_word_cons, IH.
Qed.

Lemma join_split_idemp s : join " " (split (join " " (split s))) = join " " (split s).
Proof. by rewrite split_join by apply split_wordlike. Qed.

Lemma cons_word_lower w ws :
  cons_word (lower w) (lower <$> ws) = lower <$> cons_word w ws.
Proof. by destruct w. Qed.

Lemma split_scan_lower s :
  split_scan (lower s) = (lower (split_scan s).1, lower <$> (split_scan s).2).
Proof.
  induction s as [|a s IH]; [done|].
  cbn [lower]. rewrite !split_scan_cons, isspace_lower_char, !split_eq, IH.
  destruct (isspace a); simpl; [|done]. by rewrite cons_word_lower.
Qed.

Lemma split_lower s : split (lower s) = lower <$> split s.
Proof. by rewrite !split_eq, split_scan_lower, <-cons_word_lower. Qed.

Lemma lower_join sep ws : lower (join sep ws) = join (lower sep) (lower <$> ws).
Proof.
  induction ws as [|w [|w' ws] IH]; [done..|].
  change (join sep (w :: w' :: ws)) with (w +:+ sep +:+ join sep (w' :: ws)).
  by rewrite !lower_app, IH.
Qed.

Lemma has_char_join c sep ws :
  has_char c (join sep ws) = true →
  has_char c sep = true ∨ ∃ w, w ∈ ws ∧ has_char c w = true.
Proof.
  induction ws as [|w [|w' ws] IH].
  - done.
  - intros Hc. right. exists w. split; [apply list_elem_of_here|done].
  - change (join sep (w :: w' :: ws)) with (w +:+ sep +:+ join sep (w' :: ws)).
    rewrite !has_char_app. intros [Hc|[Hc|Hc]%orb_true_iff]%orb_true_iff.
    + right. exists w. split; [apply list_elem_of_here|done].
    + by left.
    + destruct (IH Hc) as [?|(x & Hx & ?)]; [by left|].
      right. exists x. split; [by apply list_elem_of_further|done].
Qed.

Lemma has_char_cons_word c w ws x :
  x ∈ cons_word w ws → x = w ∨ x ∈ ws.
Proof. destruct w; [by right|]. by intros [->|?]%elem_of_cons; [left|right]. Qed.

(** The characters of the words of [split] are characters of the text. *)
Lemma has_char_split_scan c s :
  (has_char c (split_scan s).1 = true → has_char c s = true) ∧
  (∀ w, w ∈ (split_scan s).2 → has_char c w = true → has_char c s = true).
Proof.
  induction s as [|a s [IH1 IH2]]; [split; [done|by intros w ?%elem_of_nil]|].
  rewrite split_scan_cons. destruct (isspace a); simpl.
  - split; [done|]. intros w Hw Hc. rewrite split_eq in Hw.
    apply (has_char_cons_word c) in Hw as [->|Hw].
    + by rewrite IH1, orb_true_r.
    + by rewrite (IH2 w), orb_true_r.
  - split.
    + intros [->|Hc]%orb_true_iff; [done|]. by rewrite IH1, orb_true_r.
    + intros w Hw Hc. by rewrite (IH2 w), orb_true_r.
Qed.

Lemma has_char_split c s w :
  w ∈ split s → has_char c w = true → has_char c s = true.
Proof.
  rewrite split_eq. destruct (has_char_split_scan c s) as [H1 H2].
  intros [->|Hw]%(has_char_cons_word c); [done|by apply H2].
Qed.

End strings.

(** ** [clean_text] *)
Section clean_text.
Implicit Types (c : ascii) (s text : string) (P : dict string string).

Lemma substitute_app text P1 P2 :
  substitute text (P1 ++ P2) = substitute (substitute text P1) P2.
Proof. apply foldl_app. Qed.

Lemma substitute_no_new_char c text P :
  Forall (λ kv, has_char c kv.2 = false) P →
  has_char c text = false → has_char c (substitute text P) = false.
Proof.
  intros HP. revert text.
  induction HP as [|[k v] P Hv _ IH]; intros text Ht; [done|].
  apply IH. by apply replace_no_new_char.
Qed.

(** An entry whose key has a character that an earlier entry has replaced
    away, and that no entry in between brings back, replaces nothing. *)
Lemma substitute_dead_entry c text P1 v P2 k v' P3 :
  has_char c v = false →
  Forall (λ kv, has_char c kv.2 = false) P2 →
  has_char c k = true →
  substitute text (P1 ++ (String c "", v) :: P2 ++ (k, v') :: P3)
  = substitute text (P1 ++ (String c "", v) :: P2 ++ P3).
Proof.
  intros Hv HP2 Hk.
  rewrite !substitute_app. cbn [substitute foldl fst snd].
  fold (substitute (replace (String c "") v (substitute text P1)) P2).
  rewrite !substitute_app. cbn [substitute foldl fst snd].
  f_equal. apply (replace_absent c); [done|].
  apply substitute_no_new_char; [done|]. by apply replace_char_gone.
Qed.

(** C10: for every text, [clean_text] with the punctuation map of
    [token_lookup] gives what it gives with the map without its ['???']
    entry. The ['?'] entry comes earlier in the insertion order and leaves no
    ['?'] in the text, the entries after it bring none back, so the ['???']
    entry finds nothing to replace. *)
Theorem clean_text_question_marks_entry_dead text :
  clean_text text token_lookup = clean_text text (dict_del token_lookup "???").
Proof.
  unfold clean_text. do 3 f_equal.
  apply (substitute_dead_entry "?" text
           [(".", " <PERIOD> "); ("!", " <EXCLAMATION_MARK> ")]
           " <QUESTION_MARK> "
           [(",", " <COMMA> "); (String "034" "", " <QUOTATION_MARK> ");
            (";", " <SEMICOLON> "); ("(", " <LEFT_PAREN> ");
            (")", " <RIGHT_PAREN> "); ("-", " <DASH> ")]
           "???" " <DASH> "
           [(String "010" "", " <NEW_LINE> ")]).
  - done.
  - by repeat constructor.
  - done.
Qed.

Lemma chars_outside_spec k text c :
  chars_outside k text = true → has_char c k = true → has_char c text = false.
Proof.
  induction k as [|a k IH]; simpl; [done|].
  intros [Ha Hk]%andb_true_iff [->%bool_decide_eq_true|Hc]%orb_true_iff.
  - by apply negb_true_iff.
  - by apply IH.
Qed.

Lemma has_mark_spec k :
  has_mark k = true →
  ∃ c, has_char c k = true ∧ c ≠ " "%char ∧ islower c = false.
Proof.
  induction k as [|a k IH]; simpl; [done|].
  intros [[Ha1 Ha2]%andb_true_iff|Hk]%orb_true_iff.
  - exists a. rewrite bool_decide_eq_true_2 by done.
    apply negb_true_iff, bool_decide_eq_false in Ha1.
    by apply negb_true_iff in Ha2.
  - destruct (IH Hk) as (c & Hc & ?). exists c. by rewrite Hc, orb_true_r.
Qed.

(** A dictionary none of whose keys is found in the text changes nothing. *)
Lemma substitute_absent text P :
  Forall (λ kv, ∃ c, has_char c kv.1 = true ∧ has_char c text = false) P →
  substitute text P = text.
Proof.
  induction 1 as [|[k v] P (c & Hk & Ht) _ IH]; [done|].
  cbn [substitute foldl fst snd]. by rewrite (replace_absent c).
Qed.

(** The normal form that [clean_text] gives to a text that has none of the
    keys. *)
Lemma has_char_normal_form c text :
  has_char c (lower (join " " (split text))) = true →
  c ≠ " "%char → islower c = false → has_char c text = true.
Proof.
  intros (a & Ha & Hac)%has_char_lower Hsp Hlow.
  apply lower_char_fixes in Hac as ->; [|done].
  apply has_char_join in Ha as [Ha|(w & Hw & Ha)].
  - simpl in Ha. rewrite orb_false_r in Ha.
    by apply bool_decide_eq_true in Ha.
  - by apply (has_char_split _ _ w).
Qed.

Lemma normal_form_idemp text :
  let n := lower (join " " (split text)) in
  lower (join " " (split n)) = n.
Proof.
  simpl. rewrite split_lower, split_join by apply split_wordlike.
  rewrite !lower_join, <-list_fmap_compose. f_equal.
  apply list_fmap_ext. intros _ w _. apply lower_idemp.
Qed.

(** A key with a character that neither the white-space normalisation nor
    the lower-casing of the first pass can produce is not found in the
    second pass either. *)
Lemma clean_text_idempotent_marked (P : dict string string) (T : string) :
  Forall (λ kv, has_mark kv.1 = true) P →
  Forall (λ kv, chars_outside kv.1 T = true) P →
  clean_text (clean_text T P) P = clean_text T P.
Proof.
  intros Hmark Hout.
  assert (Forall (λ kv, has_mark kv.1 = true ∧ chars_outside kv.1 T = true) P)
    as HP by by apply Forall_and.
  unfold clean_text. fold (substitute T P).
  assert (substitute T P = T) as ->.
  { apply substitute_absent. eapply Forall_impl; [exact HP|].
    intros [k v] [(c & Hc & _)%has_mark_spec Ho]. exists c. split; [done|].
    by apply (chars_outside_spec k). }
  set (n := lower (join " " (split T))). fold (substitute n P).
  assert (substitute n P = n) as ->; [|apply normal_form_idemp].
  apply substitute_absent. eapply Forall_impl; [exact HP|].
  intros [k v] [(c & Hc & Hsp & Hlow)%has_mark_spec Ho]. exists c.
  split; [done|].
  destruct (has_char c n) eqn:Hn; [|done].
  apply has_char_normal_form in Hn; [|done..].
  by rewrite (chars_outside_spec k T c) in Hn.
Qed.

(** A punctuation character is neither the space nor a lower-case letter. *)
Lemma ispunct_mark c :
  ispunct c = true → negb (bool_decide (c = " "%char)) && negb (islower c) = true.
Proof. by destruct c as [[] [] [] [] [] [] [] []]. Qed.

Lemma punctuation_key_mark k : punctuation_key k = true → has_mark k = true.
Proof.
  unfold punctuation_key. destruct k as [|c k]; [done|]. simpl.
  intros [Hc _]%andb_true_iff. by rewrite (ispunct_mark c Hc).
Qed.

(** C9: for every punctuation map, one whose keys are made of punctuation
    characters, and every text that has none of the characters of the keys,
    [clean_text] applied twice gives what it gives applied once. The first
    pass brings in spaces and lower-case letters only, and these are no
    punctuation. *)
Theorem clean_text_idempotent (P : dict string string) (T : string) :
  Forall (λ kv, punctuation_key kv.1 = true) P →
  Forall (λ kv, chars_outside kv.1 T = true) P →
  clean_text (clean_text T P) P = clean_text T P.
Proof.
  intros Hkeys Hout. apply clean_text_idempotent_marked; [|done].
  eapply Forall_impl; [exact Hkeys|].
  intros [k v] Hk. by apply punctuation_key_mark.
Qed.

Lemma clean_text_idempotent_witness :
  clean_text (clean_text "The   Old Ones" token_lookup) token_lookup
  = clean_text "The   Old Ones" token_lookup.
Proof.
  apply clean_text_idempotent; by repeat constructor.
Defined.

(** The keys have to be punctuation. With the space as a key: the text
    [a<TAB>b] has no space, the first pass turns the tab into a space, and
    the second pass replaces that space. *)
Example clean_text_not_idempotent_space :
  let P := [(" ", " <SPACE> ")] in
  let T := String "a" (String "009" "b") in
  Forall (λ kv, chars_outside kv.1 T = true) P ∧
  clean_text T P = "a b" ∧
  clean_text (clean_text T P) P = "a <space> b".
Proof. by repeat split; repeat constructor. Qed.

(** The same for a key that is a lower-case letter. *)
Example clean_text_not_idempotent_letter :
  let P := [("a", "b")] in
  Forall (λ kv, chars_outside kv.1 "A" = true) P ∧
  clean_text "A" P = "a" ∧ clean_text (clean_text "A" P) P = "b".
Proof. by repeat split; repeat constructor. Qed.

End clean_text.

(** ** Dictionaries and counters *)
Section dict_facts.
Context {K V : Type} `{EqDecision K}.
Implicit Types (d : dict K V) (k : K) (v : V).

Lemma dict_get_None d k : dict_get d k = None ↔ k ∉ keys d.
Proof.
  unfold keys. induction d as [|[k' v'] d IH]; simpl.
  - split; [intros _; apply not_elem_of_nil|done].
  - rewrite not_elem_of_cons. destruct (decide (k' = k)) as [->|Hne].
    + split; [done|by intros [? _]].
    + rewrite IH. split; [by split|by intros [_ ?]].
Qed.

Lemma dict_get_Some_elem d k v : dict_get d k = Some v → (k, v) ∈ d.
Proof.
  induction d as [|[k' v'] d IH]; simpl; [done|].
  destruct (decide (k' = k)) as [->|].
  - intros [= ->]. apply list_elem_of_here.
  - intros ?. by apply list_elem_of_further, IH.
Qed.

Lemma elem_dict_get d k v : NoDup (keys d) → (k, v) ∈ d → dict_get d k = Some v.
Proof.
  unfold keys. induction d as [|[k' v'] d IH]; simpl.
  - by intros _ ?%elem_of_nil.
  - intros [Hk' Hd]%NoDup_cons [[= -> ->]|Hin]%elem_of_cons.
    + by rewrite decide_True.
    + rewrite decide_False; [by apply IH|].
      intros ->. apply Hk'. by apply (list_elem_of_fmap_2 fst _ (k, v)).
Qed.

Lemma dict_get_set d k v k' :
  dict_get (dict_set d k v) k' = if decide (k = k') then Some v else dict_get d k'.
Proof.
  induction d as [|[k1 v1] d IH]; simpl.
  - by destruct (decide (k = k')).
  - destruct (decide (k1 = k)) as [->|Hne]; simpl.
    + by destruct (decide (k = k')).
    + rewrite IH. destruct (decide (k1 = k')), (decide (k = k')); congruence.
Qed.

Lemma keys_set_old d k v : k ∈ keys d → keys (dict_set d k v) = keys d.
Proof.
  unfold keys. induction d as [|[k1 v1] d IH]; simpl.
  - by intros ?%elem_of_nil.
  - destruct (decide (k1 = k)) as [->|Hne]; [done|].
    intros [->|Hin]%elem_of_cons; [done|]. rewrite fmap_cons. f_equal.
    by apply IH.
Qed.

Lemma dict_set_new d k v : k ∉ keys d → dict_set d k v = d ++ [(k, v)].
Proof.
  unfold keys. induction d as [|[k1 v1] d IH]; simpl; [done|].
  intros [Hne Hin]%not_elem_of_cons.
  rewrite decide_False by done. by rewrite IH.
Qed.

Lemma dict_of_items_from d items :
  NoDup ((d ++ items).*1) →
  foldl (λ d kv, dict_set d kv.1 kv.2) d items = d ++ items.
Proof.
  revert d. induction items as [|[k v] items IH]; intros d Hnd; simpl.
  - by rewrite app_nil_r.
  - rewrite dict_set_new.
    + rewrite IH; rewrite <-app_assoc; done.
    + rewrite fmap_app in Hnd. apply NoDup_app in Hnd as (_ & Hd & _).
      intros Hin. apply (Hd k Hin). simpl. apply list_elem_of_here.
Qed.

(** A comprehension over items with distinct keys is these items, in their
    order. *)
Lemma dict_of_items_NoDup (items : list (K * V)) :
  NoDup items.*1 → dict_of_items items = items.
Proof. intros. by apply (dict_of_items_from []). Qed.

End dict_facts.

Section counter_facts.
Context {K : Type} `{EqDecision K}.
Implicit Types (l : list K) (t x : K).

Lemma occurrences_snoc t l x :
  occurrences t (l ++ [x])
  = occurrences t l + (if decide (x = t) then 1 else 0).
Proof.
  unfold occurrences. rewrite filter_app, length_app. f_equal.
  rewrite filter_cons, filter_nil. by destruct (decide (x = t)).
Qed.

Lemma occurrences_pos t l : t ∈ l ↔ 0 < occurrences t l.
Proof.
  unfold occurrences. split.
  - intros Hin. assert (t ∈ filter (λ x, x = t) l) as Hf
      by by apply list_elem_of_filter.
    destruct (filter _ l); [by apply elem_of_nil in Hf|simpl; lia].
  - destruct (filter (λ x, x = t) l) as [|y f] eqn:Hf; simpl; [lia|].
    intros _. assert (y ∈ filter (λ x, x = t) l) as Hy
      by (rewrite Hf; apply list_elem_of_here).
    by apply list_elem_of_filter in Hy as [-> ?].
Qed.

Lemma Counter_snoc l x : Counter (l ++ [x]) = incr (Counter l) x.
Proof. unfold Counter. by rewrite foldl_app. Qed.

(** A counter has the number of occurrences of each element of the list,
    and nothing else. *)
Lemma dict_get_Counter l t :
  dict_get (Counter l) t
  = if decide (t ∈ l) then Some (occurrences t l) else None.
Proof.
  induction l as [|x l IH] using rev_ind.
  - rewrite decide_False; [done|apply not_elem_of_nil].
  - rewrite Counter_snoc. unfold incr. rewrite dict_get_set, occurrences_snoc.
    destruct (decide (x = t)) as [->|Hne]; rewrite IH.
    + rewrite (decide_True (P := t ∈ l ++ [t]))
        by (apply elem_of_app; right; apply list_elem_of_here).
      f_equal. destruct (decide (t ∈ l)) as [|Hn]; [done|].
      apply (not_iff_compat (occurrences_pos t l)) in Hn. simpl. lia.
    + rewrite Nat.add_0_r.
      destruct (decide (t ∈ l)) as [Hin|Hn].
      * by rewrite (decide_True (P := t ∈ l ++ [x])) by (apply elem_of_app; by left).
      * rewrite (decide_False (P := t ∈ l ++ [x])); [done|].
        intros [?|?%list_elem_of_singleton]%elem_of_app; congruence.
Qed.

Lemma elem_of_keys_Counter l t : t ∈ keys (Counter l) ↔ t ∈ l.
Proof.
  destruct (decide (t ∈ l)) as [Hin|Hn].
  - split; [done|]. intros _.
    destruct (decide (t ∈ keys (Counter l))) as [|Hk]; [done|].
    apply dict_get_None in Hk.
    by rewrite dict_get_Counter, decide_True in Hk.
  - split; [|done]. intros Hk.
    assert (dict_get (Counter l) t = None) as Hg
      by by rewrite dict_get_Counter, decide_False.
    by apply dict_get_None in Hg.
Qed.

(** The keys of a counter are in the order the elements are first met. *)
Lemma keys_Counter_snoc l x :
  keys (Counter (l ++ [x]))
  = keys (Counter l) ++ (if decide (x ∈ l) then [] else [x]).
Proof.
  rewrite Counter_snoc. unfold incr.
  destruct (decide (x ∈ l)) as [Hin|Hn].
  - rewrite keys_set_old, app_nil_r; [done|by apply elem_of_keys_Counter].
  - rewrite dict_set_new by by rewrite elem_of_keys_Counter.
    unfold keys. by rewrite fmap_app.
Qed.

Lemma NoDup_keys_Counter l : NoDup (keys (Counter l)).
Proof.
  induction l as [|x l IH] using rev_ind; [constructor|].
  rewrite keys_Counter_snoc. destruct (decide (x ∈ l)) as [|Hn].
  - by rewrite app_nil_r.
  - apply NoDup_app. split_and!; [done| |apply NoDup_singleton].
    intros y Hy ->%list_elem_of_singleton. apply Hn.
    by apply elem_of_keys_Counter.
Qed.

Lemma elem_of_Counter l t n :
  (t, n) ∈ Counter l ↔ t ∈ l ∧ n = occurrences t l.
Proof.
  split.
  - intros Hin. apply elem_dict_get in Hin; [|apply NoDup_keys_Counter].
    rewrite dict_get_Counter in Hin. destruct (decide (t ∈ l)); naive_solver.
  - intros [Hin ->]. apply dict_get_Some_elem.
    by rewrite dict_get_Counter, decide_True.
Qed.

End counter_facts.

(** ** [filter_text] *)
Section filter_text.
Implicit Types (text t : string) (tokens : list string).

(** The words that [filter_text] keeps: those counted more than
    [min_frequency] times. *)
Lemma elem_of_trimmed_words tokens t :
  t ∈ (filter (λ wc, min_frequency < wc.2) (Counter tokens)).*1
  ↔ min_frequency < occurrences t tokens.
Proof.
  rewrite list_elem_of_fmap. split.
  - intros ([w n] & -> & [Hn [_ ->]%elem_of_Counter]%list_elem_of_filter). done.
  - intros Hn. exists (t, occurrences t tokens). split; [done|].
    apply list_elem_of_filter. split; [done|].
    apply elem_of_Counter. split; [|done].
    apply occurrences_pos. lia.
Qed.

Lemma filter_text_eq text :
  filter_text text
  = filter (λ t, min_frequency < occurrences t (split text)) (split text).
Proof.
  unfold filter_text. apply list_filter_iff. intros t.
  apply elem_of_trimmed_words.
Qed.

Lemma occurrences_filter (Q : string → Prop) `{!∀ x, Decision (Q x)} tokens t :
  Q t → occurrences t (filter Q tokens) = occurrences t tokens.
Proof.
  intros HQ. unfold occurrences. rewrite list_filter_filter. f_equal.
  apply list_filter_iff. intros x. split; [by intros [? _]|by intros ->].
Qed.

(** C6: with [tokens] the token sequence of the text and the threshold
    [min_frequency] of the code, a token that occurs [min_frequency] times
    or fewer is not in the result of [filter_text], every occurrence of a
    token that occurs [min_frequency + 1] times or more is kept, and the
    result is a subsequence of [tokens]. *)
Theorem filter_text_boundary text t :
  let tokens := split text in
  let out := filter_text text in
  (occurrences t tokens ≤ min_frequency → t ∉ out) ∧
  (min_frequency + 1 ≤ occurrences t tokens →
     t ∈ out ∧ occurrences t out = occurrences t tokens) ∧
  out `sublist_of` tokens.
Proof.
  cbv zeta. rewrite filter_text_eq. split_and!.
  - intros Hle [Hlt _]%list_elem_of_filter. lia.
  - intros Hge. split.
    + apply list_elem_of_filter. split; [cbv beta; lia|]. apply occurrences_pos. lia.
    + apply (occurrences_filter (λ t, min_frequency < occurrences t (split text))).
      lia.
  - apply sublist_filter.
Qed.

(** Any sequence of tokens is the token sequence of a text: of the tokens
    joined by spaces. *)
Lemma filter_text_join tokens :
  Forall wordlike tokens →
  filter_text (join " " tokens)
  = filter (λ t, min_frequency < occurrences t tokens) tokens.
Proof. intros Hw. by rewrite filter_text_eq, split_join. Qed.

Example filter_text_example :
  filter_text "a b a a a b c c c c b a b c d"
  = ["a"; "b"; "a"; "a"; "a"; "b"; "c"; "c"; "c"; "c"; "b"; "a"; "b"; "c"]
  ∧ filter_text "x y x y x y" = [].
Proof. by vm_compute. Qed.

End filter_text.

(** ** Sorting *)
Section sorted_facts.
Context {A B : Type} (lt : relation B) `{!RelDecision lt} (key : A → B).
Implicit Types (x y : A) (l : list A).

Lemma insert_desc_Permutation x l : insert_desc lt key x l ≡ₚ x :: l.
Proof.
  induction l as [|y l IH]; simpl; [done|].
  destruct (decide (lt (key x) (key y))); [|done].
  by rewrite IH, Permutation_swap.
Qed.

Lemma sorted_desc_Permutation l : sorted_desc lt key l ≡ₚ l.
Proof.
  induction l as [|x l IH]; simpl; [done|].
  by rewrite insert_desc_Permutation, IH.
Qed.

Lemma sorted_desc_ext (key' : A → B) l :
  (∀ x, key x = key' x) → sorted_desc lt key l = sorted_desc lt key' l.
Proof.
  intros Hk. induction l as [|x l IH]; simpl; [done|]. rewrite IH.
  generalize (sorted_desc lt key' l). intros s.
  induction s as [|y s IHs]; simpl; [done|]. by rewrite !Hk, IHs.
Qed.

End sorted_facts.

Section stable.
Context {A : Type} `{EqDecision A} (key : A → nat).
Implicit Types (x y a b : A) (l s : list A).

Lemma first_index_lt x l : x ∈ l ↔ first_index x l < length l.
Proof.
  induction l as [|y l IH]; simpl.
  - split; [by intros ?%elem_of_nil|lia].
  - rewrite elem_of_cons. destruct (decide (y = x)) as [->|Hne].
    + split; [lia|by left].
    + rewrite IH. split; [intros [?|?]; [congruence|lia]|right; lia].
Qed.

Lemma first_index_app_l x l l' :
  x ∈ l → first_index x (l ++ l') = first_index x l.
Proof.
  induction l as [|y l IH]; simpl; [by intros ?%elem_of_nil|].
  destruct (decide (y = x)); [done|].
  intros [?|Hin]%elem_of_cons; [congruence|]. by rewrite IH.
Qed.

Lemma first_index_app_r x l l' :
  x ∉ l → first_index x (l ++ l') = length l + first_index x l'.
Proof.
  induction l as [|y l IH]; simpl; [done|].
  intros [Hne Hin]%not_elem_of_cons.
  rewrite decide_False by done. by rewrite IH.
Qed.

Lemma StronglySorted_impl_elem (R R' : relation A) s :
  (∀ a b, a ∈ s → b ∈ s → R a b → R' a b) →
  StronglySorted R s → StronglySorted R' s.
Proof.
  intros HR. induction 1 as [|y s Hs IH Hy]; constructor.
  - apply IH. intros a b Ha Hb. by apply HR; apply list_elem_of_further.
  - rewrite Forall_forall in Hy. apply Forall_forall. intros z Hz.
    apply HR; [apply list_elem_of_here|by apply list_elem_of_further|by apply Hy].
Qed.

Lemma StronglySorted_lookup (R : relation A) s i j a b :
  StronglySorted R s → s !! i = Some a → s !! j = Some b → i < j → R a b.
Proof.
  intros Hs. revert i j. induction Hs as [|y s Hs IH Hy]; intros i j; [done|].
  destruct i as [|i], j as [|j]; simpl; try lia.
  - intros [= ->] Hb _. rewrite Forall_forall in Hy.
    apply Hy. by apply list_elem_of_lookup_2 in Hb.
  - intros Ha Hb Hij. apply (IH i j); [done..|lia].
Qed.

Lemma insert_desc_sorted l x s :
  (∀ y, y ∈ s → first_index x l < first_index y l) →
  StronglySorted (precedes key l) s →
  StronglySorted (precedes key l) (insert_desc lt key x s).
Proof.
  intros Hx. induction 1 as [|y s Hs IH Hy]; simpl.
  - repeat constructor.
  - assert (∀ z, z ∈ s → first_index x l < first_index z l) as Hx'
      by (intros z Hz; by apply Hx, list_elem_of_further).
    specialize (IH Hx').
    assert (first_index x l < first_index y l) as Hxy
      by apply Hx, list_elem_of_here.
    destruct (decide (key x < key y)) as [Hlt|Hge].
    + constructor; [done|].
      rewrite insert_desc_Permutation. constructor; [by left|done].
    + constructor; [by constructor|].
      constructor.
      * unfold precedes. lia.
      * rewrite Forall_forall in Hy. apply Forall_forall. intros z Hz.
        specialize (Hy z Hz). specialize (Hx' z Hz).
        unfold precedes in *. lia.
Qed.

(** [sorted_desc] is sorted, and stable. *)
Lemma sorted_desc_sorted l :
  NoDup l → StronglySorted (precedes key l) (sorted_desc lt key l).
Proof.
  induction 1 as [|x l Hx Hnd IH]; simpl; [constructor|].
  apply insert_desc_sorted.
  - intros y Hy. rewrite sorted_desc_Permutation in Hy. simpl.
    rewrite decide_True by done. rewrite decide_False by congruence. lia.
  - apply (StronglySorted_impl_elem (precedes key l)); [|done].
    intros a b Ha Hb. rewrite sorted_desc_Permutation in Ha, Hb.
    unfold precedes. simpl.
    rewrite !decide_False by congruence. lia.
Qed.

End stable.

(** The keys of a counter keep the order of the first meetings. *)
Section first_met.
Context {K : Type} `{EqDecision K}.
Implicit Types (l : list K) (a b x : K).

Lemma first_index_keys_Counter l a b :
  a ∈ l → b ∈ l →
  first_index a (keys (Counter l)) < first_index b (keys (Counter l)) →
  first_index a l < first_index b l.
Proof.
  induction l as [|x l IH] using rev_ind; [by intros ?%elem_of_nil|].
  rewrite keys_Counter_snoc.
  assert (∀ y, y ∈ l → y ∈ keys (Counter l)) as Hk
    by (intros y; apply elem_of_keys_Counter).
  assert (∀ y, first_index y l ≤ length l) as Hle.
  { intros y. destruct (decide (y ∈ l)) as [Hy|Hy].
    - apply first_index_lt in Hy. lia.
    - rewrite <-(app_nil_r l) at 1. rewrite first_index_app_r by done. simpl. lia. }
  destruct (decide (x ∈ l)) as [Hx|Hx].
  - rewrite app_nil_r.
    intros Ha Hb Hlt.
    assert (∀ y, y ∈ l ++ [x] → y ∈ l) as Hin.
    { intros y [?|Hy]%elem_of_app; [done|].
      by apply list_elem_of_singleton in Hy as ->. }
    assert (a ∈ l) as Ha' by auto.
    assert (b ∈ l) as Hb' by auto.
    rewrite !first_index_app_l by done. by apply IH.
  - intros Ha%elem_of_app Hb%elem_of_app.
    assert (x ∉ keys (Counter l)) as Hxk by by rewrite elem_of_keys_Counter.
    destruct Ha as [Ha|Ha], Hb as [Hb|Hb];
      try (apply list_elem_of_singleton in Ha as ->);
      try (apply list_elem_of_singleton in Hb as ->).
    + rewrite !first_index_app_l by auto. by apply IH.
    + intros _. rewrite (first_index_app_l a), (first_index_app_r x) by done.
      apply first_index_lt in Ha. lia.
    + rewrite (first_index_app_l b), (first_index_app_r x) by auto.
      intros Hlt. apply Hk, first_index_lt in Hb. lia.
    + lia.
Qed.

End first_met.

(** ** [create_lookup_tables] *)
Section lookup_tables.
Implicit Types (text : list string) (t a b token : string) (i j : nat).

Lemma fst_enumerate {A} (l : list A) : (enumerate l).*1 = seq 0 (length l).
Proof.
  unfold enumerate. rewrite fmap_imap.
  rewrite (imap_ext _ (λ j _, j)) by done.
  by rewrite (imap_seq_0 l (λ j, j)), list_fmap_id.
Qed.

Lemma snd_enumerate {A} (l : list A) : (enumerate l).*2 = l.
Proof.
  unfold enumerate. rewrite fmap_imap.
  rewrite (imap_ext _ (λ _ x, x)) by done.
  by rewrite (imap_const (λ x, x)), list_fmap_id.
Qed.

Lemma elem_of_enumerate {A} (l : list A) i x :
  (i, x) ∈ enumerate l ↔ l !! i = Some x.
Proof.
  unfold enumerate. rewrite elem_of_lookup_imap. split.
  - by intros (j & y & [= -> ->] & ?).
  - intros ?. by exists i, x.
Qed.

(** [int_to_vocab[i]] is the [i]-th sorted word. *)
Lemma dict_get_enumerate {A} (l : list A) i : dict_get (enumerate l) i = l !! i.
Proof.
  destruct (l !! i) as [x|] eqn:Hi.
  - apply elem_dict_get; [|by apply elem_of_enumerate].
    unfold keys. rewrite fst_enumerate. apply NoDup_seq.
  - apply dict_get_None. unfold keys. rewrite fst_enumerate, elem_of_seq.
    apply lookup_ge_None in Hi. lia.
Qed.

Lemma fst_swap {A B} (l : list (A * B)) : ((λ iw, (iw.2, iw.1)) <$> l).*1 = l.*2.
Proof. induction l as [|[] l IH]; simpl; by f_equal. Qed.

(** [vocab_to_int[t]] is the place of [t] among the sorted words. *)
Lemma dict_get_swap_enumerate (l : list string) t i :
  NoDup l →
  dict_get ((λ iw, (iw.2, iw.1)) <$> enumerate l) t = Some i ↔ l !! i = Some t.
Proof.
  intros Hnd. split.
  - intros Hin%dict_get_Some_elem%list_elem_of_fmap.
    by destruct Hin as ([j x] & [= -> ->] & Hin%elem_of_enumerate).
  - intros Hi. apply elem_dict_get.
    + unfold keys. by rewrite fst_swap, snd_enumerate.
    + apply list_elem_of_fmap. exists (i, t). by rewrite elem_of_enumerate.
Qed.

Lemma counter_key text w :
  default 0 (dict_get (Counter (counted text)) w) = occurrences w (counted text).
Proof.
  rewrite dict_get_Counter. destruct (decide (w ∈ counted text)) as [|Hn]; [done|].
  apply (not_iff_compat (occurrences_pos w _)) in Hn. simpl. lia.
Qed.

Lemma sorted_words_Permutation text :
  sorted_words text ≡ₚ keys (Counter (counted text)).
Proof. apply sorted_desc_Permutation. Qed.

Lemma NoDup_sorted_words text : NoDup (sorted_words text).
Proof. rewrite sorted_words_Permutation. apply NoDup_keys_Counter. Qed.

Lemma elem_of_sorted_words text t :
  t ∈ sorted_words text ↔ t ∈ text ∨ t = "<PAD>".
Proof.
  rewrite sorted_words_Permutation, elem_of_keys_Counter.
  unfold counted. by rewrite elem_of_app, list_elem_of_singleton.
Qed.

(** The two tables, read off the sorted words. *)
Lemma create_lookup_tables_eq text :
  create_lookup_tables text
  = ((λ iw, (iw.2, iw.1)) <$> enumerate (sorted_words text),
     enumerate (sorted_words text)).
Proof.
  unfold create_lookup_tables. cbv zeta.
  rewrite <-(Counter_snoc text "<PAD>"). fold (counted text).
  rewrite (sorted_desc_ext lt _ (λ w, occurrences w (counted text)))
    by apply counter_key.
  fold (sorted_words text).
  assert (dict_of_items (enumerate (sorted_words text)) = enumerate (sorted_words text))
    as -> by (apply dict_of_items_NoDup; rewrite fst_enumerate; apply NoDup_seq).
  f_equal. apply dict_of_items_NoDup.
  rewrite fst_swap, snd_enumerate. apply NoDup_sorted_words.
Qed.

Lemma size_vocabulary text :
  length (sorted_words text) = size (list_to_set (counted text) : gset string).
Proof.
  rewrite sorted_words_Permutation.
  rewrite <-(size_list_to_set (C:=gset string)) by apply NoDup_keys_Counter.
  f_equal. apply set_eq. intros t.
  by rewrite !elem_of_list_to_set, elem_of_keys_Counter.
Qed.

(** C5: the two tables of [create_lookup_tables] are inverse to each other
    on the vocabulary (the tokens of the input and the padding token), and
    the ids are exactly 0, ..., N-1, each given to one token, for N the number
    of distinct tokens, the padding token included. *)
Theorem create_lookup_tables_bijection text :
  let vocab_to_int := (create_lookup_tables text).1 in
  let int_to_vocab := (create_lookup_tables text).2 in
  let N := size (list_to_set (text ++ ["<PAD>"]) : gset string) in
  (∀ token, is_Some (dict_get vocab_to_int token)
            ↔ token ∈ text ∨ token = "<PAD>") ∧
  (∀ token i, dict_get vocab_to_int token = Some i
              ↔ dict_get int_to_vocab i = Some token) ∧
  (∀ i, i < N ↔ ∃ token, dict_get vocab_to_int token = Some i) ∧
  (∀ t1 t2 i, dict_get vocab_to_int t1 = Some i →
              dict_get vocab_to_int t2 = Some i → t1 = t2) ∧
  length vocab_to_int = N ∧ length int_to_vocab = N.
Proof.
  cbv zeta. rewrite create_lookup_tables_eq. cbn [fst snd].
  fold (counted text). rewrite <-size_vocabulary.
  pose proof (NoDup_sorted_words text) as Hnd.
  split_and!.
  - intros token. rewrite <-elem_of_sorted_words, list_elem_of_lookup. split.
    + intros [i Hi]. exists i. by apply dict_get_swap_enumerate.
    + intros [i Hi]. exists i. by apply dict_get_swap_enumerate.
  - intros token i. by rewrite dict_get_swap_enumerate, dict_get_enumerate.
  - intros i. rewrite <-lookup_lt_is_Some. split.
    + intros [t Ht]. exists t. by apply dict_get_swap_enumerate.
    + intros [t Ht]. exists t. by apply dict_get_swap_enumerate.
  - intros t1 t2 i H1%dict_get_swap_enumerate H2%dict_get_swap_enumerate;
      [congruence|done..].
  - unfold enumerate. by rewrite length_fmap, length_imap.
  - unfold enumerate. by rewrite length_imap.
Qed.

Lemma lower_char_not_upper (a : ascii) : isupper (lower_char a) = false.
Proof. by destruct a as [[] [] [] [] [] [] [] []]. Qed.

Lemma lower_no_upper (c : ascii) (s : string) :
  isupper c = true → has_char c (lower s) = false.
Proof.
  intros Hc. destruct (has_char c (lower s)) eqn:Hs; [|done].
  apply has_char_lower in Hs as (a & _ & <-).
  by rewrite lower_char_not_upper in Hc.
Qed.

(** The tokens of a cleaned text are in lower case: the padding token is
    none of them. *)
Lemma pad_not_in_cleaned_tokens all_text_data P :
  "<PAD>" ∉ filter_text (clean_text all_text_data P).
Proof.
  rewrite filter_text_eq. intros [_ Hin]%list_elem_of_filter.
  apply (has_char_split "P") in Hin; [|done].
  unfold clean_text in Hin. by rewrite lower_no_upper in Hin.
Qed.

(** C7: whatever the token list, the padding token is in the vocabulary,
    with an id that [int_to_vocab] maps back to it. It gets there by the
    increment of its count, not through [filter_text]: in
    [preprocess_and_save_data] the tokens that are counted have passed the
    filter, the padding token is not among them, so that it is counted once
    (not more than [min_frequency]), and it has its id all the same; the
    encoding of the tokens never fails. *)
Theorem pad_token_included (text : list string) (all_text_data : string) :
  (let '(vocab_to_int, int_to_vocab) := create_lookup_tables text in
   dict_get (incr (Counter text) "<PAD>") "<PAD>"
   = Some (occurrences "<PAD>" text + 1) ∧
   ∃ i, dict_get vocab_to_int "<PAD>" = Some i ∧
        dict_get int_to_vocab i = Some "<PAD>" ∧
        i < length int_to_vocab) ∧
  (let tokens := filter_text (clean_text all_text_data token_lookup) in
   ("<PAD>" ∉ tokens) ∧
   dict_get (incr (Counter tokens) "<PAD>") "<PAD>" = Some 1 ∧
   ∃ int_text vocab_to_int int_to_vocab,
     preprocess_and_save_data all_text_data
     = Some (int_text, vocab_to_int, int_to_vocab, token_lookup) ∧
     (vocab_to_int, int_to_vocab) = create_lookup_tables tokens ∧
     is_Some (dict_get vocab_to_int "<PAD>")).
Proof.
  assert (∀ l, dict_get (incr (Counter l) "<PAD>") "<PAD>"
               = Some (occurrences "<PAD>" l + 1)) as Hcount.
  { intros l. rewrite <-Counter_snoc, dict_get_Counter, occurrences_snoc.
    rewrite !decide_True; [done..|].
    apply elem_of_app. right. apply list_elem_of_here. }
  assert (∀ l, ∃ i, sorted_words l !! i = Some "<PAD>") as Hpad.
  { intros l. apply list_elem_of_lookup, elem_of_sorted_words. by right. }
  split.
  - rewrite create_lookup_tables_eq. split; [apply Hcount|].
    destruct (Hpad text) as [i Hi]. exists i. split_and!.
    + apply dict_get_swap_enumerate; [apply NoDup_sorted_words|done].
    + by rewrite dict_get_enumerate.
    + unfold enumerate. rewrite length_imap. by apply lookup_lt_Some in Hi.
  - cbv zeta. set (tokens := filter_text (clean_text all_text_data token_lookup)).
    assert ("<PAD>" ∉ tokens) as Hn by apply pad_not_in_cleaned_tokens.
    split; [done|]. split.
    { rewrite Hcount. apply (not_iff_compat (occurrences_pos _ _)) in Hn.
      f_equal. lia. }
    unfold preprocess_and_save_data. cbv zeta. fold tokens.
    rewrite create_lookup_tables_eq.
    set (vocab_to_int := (λ iw, (iw.2, iw.1)) <$> enumerate (sorted_words tokens)).
    assert (is_Some (mapM (dict_get vocab_to_int) tokens)) as [int_text Hint].
    { apply mapM_is_Some, Forall_forall. intros t Ht.
      assert (t ∈ sorted_words tokens) as [i Hi]%list_elem_of_lookup
        by (apply elem_of_sorted_words; by left).
      exists i. apply dict_get_swap_enumerate; [apply NoDup_sorted_words|done]. }
    eexists int_text, _, _. rewrite Hint. split_and!; [done..|].
    destruct (Hpad tokens) as [i Hi]. exists i.
    apply dict_get_swap_enumerate; [apply NoDup_sorted_words|done].
Qed.

(** C8: [int_to_vocab] lists the distinct tokens in the order of
    non-increasing frequency, and tokens of the same frequency in the order
    in which they are first met. Frequencies and first meetings are those of
    the counter the table is made from: the input followed by the one
    occurrence of the padding token that the increment adds. *)
Theorem create_lookup_tables_order text i j a b :
  let int_to_vocab := (create_lookup_tables text).2 in
  let counted := text ++ ["<PAD>"] in
  dict_get int_to_vocab i = Some a →
  dict_get int_to_vocab j = Some b →
  i < j →
  occurrences b counted ≤ occurrences a counted ∧
  (occurrences a counted = occurrences b counted →
   first_index a counted < first_index b counted).
Proof.
  cbv zeta. rewrite create_lookup_tables_eq. cbn [snd].
  rewrite !dict_get_enumerate. intros Ha Hb Hij.
  fold (counted text). unfold sorted_words in Ha, Hb.
  pose proof (sorted_desc_sorted (λ w, occurrences w (counted text)) _
                (NoDup_keys_Counter (counted text))) as Hs.
  pose proof (StronglySorted_lookup _ _ _ _ _ _ Hs Ha Hb Hij) as Hab.
  split; [unfold precedes in Hab; lia|].
  intros Heq. destruct Hab as [?|[_ Hlt]]; [lia|].
  assert (∀ w k, sorted_words text !! k = Some w → w ∈ counted text) as Hin.
  { intros w k Hw%list_elem_of_lookup_2.
    apply elem_of_keys_Counter. by rewrite <-sorted_words_Permutation. }
  apply first_index_keys_Counter; [by apply (Hin a i)|by apply (Hin b j)|done].
Qed.

Lemma create_lookup_tables_order_witness :
  let counted := ["b"; "a"; "b"; "c"; "a"; "b"; "<PAD>"] in
  occurrences "<PAD>" counted ≤ occurrences "c" counted ∧
  (occurrences "c" counted = occurrences "<PAD>" counted →
   first_index "c" counted < first_index "<PAD>" counted).
Proof.
  apply (create_lookup_tables_order ["b"; "a"; "b"; "c"; "a"; "b"] 2 3 "c" "<PAD>");
    [reflexivity|reflexivity|lia].
Defined.

Example create_lookup_tables_example :
  create_lookup_tables ["b"; "a"; "b"; "c"; "a"; "b"]
  = ([("b", 0); ("a", 1); ("c", 2); ("<PAD>", 3)],
     [(0, "b"); (1, "a"); (2, "c"); (3, "<PAD>")]).
Proof. reflexivity. Qed.

End lookup_tables.

(** ** [generate] *)
Section generate_facts.
Implicit Types (current_seq : list nat) (predicted : list string) (u : Qc).

Lemma set_last_roll_left current_seq v :
  set_last (roll_left current_seq) v
  = match current_seq with
    | [] => inl IndexError
    | _ :: rest => inr (rest ++ [v])
    end.
Proof.
  destruct current_seq as [|x rest]; [done|].
  unfold roll_left, set_last, ret.
  destruct (rest ++ [x]) as [|y l] eqn:Hl; [by destruct rest|].
  rewrite <-Hl. f_equal.
  replace (length (rest ++ [x]) - 1) with (length rest + 0)
    by (rewrite length_app; simpl; lia).
  by rewrite insert_app_r.
Qed.

(** C4: a pass of the loop that goes through leaves a window of the same
    length: the old window without its first id, with the sampled id (the
    one that [random_choice] returned for the top [top_k] probabilities)
    appended. The token of that id is appended to the tokens. *)
Theorem generate_step_slides_window
    (rnn : list nat → list Qc) (rng : nat → Qc) (int_to_vocab : dict nat string)
    (i : nat) current_seq predicted current_seq' predicted' :
  generate_step rnn rng int_to_vocab i (current_seq, predicted)
  = inr (current_seq', predicted') →
  ∃ p top_i word_i word,
    topk (rnn current_seq) top_k = inr (p, top_i) ∧
    random_choice top_i ((λ x, x / sum p)%Qc <$> p) (rng i) = inr word_i ∧
    dict_get int_to_vocab word_i = Some word ∧
    current_seq' = tail current_seq ++ [word_i] ∧
    length current_seq' = length current_seq ∧
    predicted' = predicted ++ [word].
Proof.
  unfold generate_step.
  destruct (topk (rnn current_seq) top_k) as [e|[p top_i]]; [done|]. simpl.
  destruct (decide (sum p = 0%Qc)); [done|].
  destruct (random_choice top_i _ (rng i)) as [e|word_i] eqn:Hc; [done|]. simpl.
  destruct (dict_get int_to_vocab word_i) as [word|] eqn:Hw; [|done]. simpl.
  rewrite set_last_roll_left.
  destruct current_seq as [|x rest]; [done|]. simpl.
  intros [= <- <-]. exists p, top_i, word_i, word.
  split_and!; try done. rewrite length_app. simpl. lia.
Qed.

Lemma generate_step_slides_window_witness :
  ∃ p top_i word_i word,
    topk [0; 0; 1; 0; 0]%Qc top_k = inr (p, top_i) ∧
    random_choice top_i ((λ x, x / sum p)%Qc <$> p) 0%Qc = inr word_i ∧
    dict_get [(0, "<PAD>"); (1, "the"); (2, "cat"); (3, "sat")] word_i = Some word ∧
    [0; 0; 1; 2] = tail [0; 0; 0; 1] ++ [word_i] ∧
    length [0; 0; 1; 2] = length [0; 0; 0; 1] ∧
    ["the"; "cat"] = ["the"] ++ [word].
Proof.
  apply (generate_step_slides_window
           (λ _, [0; 0; 1; 0; 0]%Qc) (λ _, 0%Qc)
           [(0, "<PAD>"); (1, "the"); (2, "cat"); (3, "sat")] 0
           [0; 0; 0; 1] ["the"] [0; 0; 1; 2] ["the"; "cat"]).
  reflexivity.
Defined.

Lemma generate_step_lengths rnn rng int_to_vocab i st st' :
  generate_step rnn rng int_to_vocab i st = inr st' →
  length st'.1 = length st.1 ∧ length st'.2 = length st.2 + 1.
Proof.
  destruct st as [w pr]. unfold generate_step.
  destruct (topk (rnn w) top_k) as [e|[p top_i]]; [done|]. simpl.
  destruct (decide (sum p = 0%Qc)); [done|].
  destruct (random_choice top_i _ (rng i)) as [e|word_i]; [done|]. simpl.
  destruct (dict_get int_to_vocab word_i) as [word|]; [|done]. simpl.
  rewrite set_last_roll_left. destruct w as [|x rest]; [done|]. simpl.
  intros [= <-]. simpl. rewrite !length_app. simpl. lia.
Qed.

(** Over the whole loop: the window keeps the length [sequence_length], and
    one token is added in each pass. *)
Lemma generate_loop_lengths rnn rng int_to_vocab predict_len i st st' :
  generate_loop rnn rng int_to_vocab predict_len i st = inr st' →
  length st'.1 = length st.1 ∧ length st'.2 = length st.2 + predict_len.
Proof.
  revert i st. induction predict_len as [|n IH]; intros i st; simpl.
  - intros [= <-]. lia.
  - destruct (generate_step rnn rng int_to_vocab i st) as [e|st1] eqn:Hstep;
      [done|]. simpl. intros Hloop.
    apply generate_step_lengths in Hstep as [H1 H2].
    destruct (IH _ _ Hloop) as [-> ->]. lia.
Qed.

Lemma generate_state_lengths sequence_length rnn rng int_to_vocab
    prime_id pad_value predict_len st :
  generate_state sequence_length rnn rng int_to_vocab prime_id pad_value predict_len
  = inr st →
  length st.1 = sequence_length ∧ length st.2 = S predict_len.
Proof.
  unfold generate_state, generate_init.
  destruct (set_last (replicate sequence_length pad_value) prime_id)
    as [e|w] eqn:Hset; [done|]. simpl.
  destruct (dict_get int_to_vocab prime_id) as [word|]; [|done]. simpl.
  intros [-> ->]%generate_loop_lengths. simpl. split; [|done].
  unfold set_last in Hset.
  destruct (replicate sequence_length pad_value) eqn:Hr; [done|].
  injection Hset as <-. by rewrite <-Hr, length_insert, length_replicate.
Qed.

(** *** The scenario of the specification *)

Lemma insert_desc_zero (x : nat * Qc) l :
  x.2 = 0%Qc → Forall (λ y, y.2 = 0%Qc) l →
  insert_desc Qclt snd x l = x :: l.
Proof.
  intros Hx [|y l' Hy _]; [done|]. simpl.
  rewrite decide_False; [done|]. by rewrite Hx, Hy.
Qed.

Lemma sorted_desc_zeros (l : list (nat * Qc)) :
  Forall (λ y, y.2 = 0%Qc) l → sorted_desc Qclt snd l = l.
Proof.
  induction 1 as [|x l Hx Hl IH]; [done|]. simpl.
  by rewrite IH, insert_desc_zero.
Qed.

Lemma insert_desc_one (x : nat * Qc) l :
  x.2 = 1%Qc → Forall (λ y, y.2 = 0%Qc) l →
  insert_desc Qclt snd x l = x :: l.
Proof.
  intros Hx [|y l' Hy _]; [done|]. simpl.
  rewrite decide_False; [done|]. by rewrite Hx, Hy.
Qed.

Lemma insert_desc_zero_one (x m : nat * Qc) l :
  x.2 = 0%Qc → m.2 = 1%Qc → Forall (λ y, y.2 = 0%Qc) l →
  insert_desc Qclt snd x (m :: l) = m :: x :: l.
Proof.
  intros Hx Hm Hl. simpl.
  rewrite decide_True by by rewrite Hx, Hm.
  by rewrite insert_desc_zero.
Qed.

(** The top 5 of a sure prediction over at least 5 ids. *)
Lemma topk_one_hot n :
  5 ≤ n → topk (one_hot n 2) top_k = inr ([1; 0; 0; 0; 0]%Qc, [2; 0; 1; 3; 4]).
Proof.
  intros Hn. destruct (Nat.le_exists_sub 5 n Hn) as (k & -> & _).
  rewrite Nat.add_comm. unfold topk, top_k.
  rewrite decide_True
    by (unfold one_hot; rewrite length_insert, length_replicate; lia).
  change (one_hot (5 + k) 2)
    with ([0; 0; 1; 0; 0]%Qc ++ replicate k 0%Qc).
  unfold enumerate. rewrite imap_app.
  set (rest := imap _ (replicate k 0%Qc)).
  assert (Forall (λ y : nat * Qc, y.2 = 0%Qc) rest) as Hrest.
  { apply Forall_forall. intros y Hy. unfold rest in Hy.
    apply elem_of_lookup_imap in Hy as (j & z & -> & Hz).
    by apply lookup_replicate in Hz as [-> _]. }
  cbn [imap app sorted_desc length Nat.add].
  rewrite (sorted_desc_zeros rest) by done.
  unfold compose. cbv beta.
  rewrite (insert_desc_zero (4, 0%Qc) rest) by done.
  rewrite (insert_desc_zero (3, 0%Qc)) by (repeat constructor; done).
  rewrite (insert_desc_one (2, 1%Qc)) by (repeat constructor; done).
  rewrite (insert_desc_zero_one (1, 0%Qc)) by (repeat constructor; done).
  rewrite (insert_desc_zero_one (0, 0%Qc)) by (repeat constructor; done).
  done.
Qed.

(** A draw below 1 picks the id that has all the weight. *)
Lemma random_choice_sure u :
  (u < 1)%Qc →
  random_choice [2; 0; 1; 3; 4] ((λ x, x / 1)%Qc <$> [1; 0; 0; 0; 0]%Qc) u = inr 2.
Proof.
  intros Hu. unfold random_choice.
  rewrite decide_False by done.
  rewrite decide_False by (intros H; by apply H).
  rewrite decide_False.
  2:{ intros H. apply Exists_exists in H as (x & Hx & Hneg).
      repeat (apply elem_of_cons in Hx as [->|Hx]; [by vm_compute in Hneg|]).
      by apply elem_of_nil in Hx. }
  rewrite decide_False by (intros H; by apply H).
  cbn [cumsum cumsum_from fmap list_fmap last default searchsorted_right].
  rewrite decide_False; [done|].
  intros Hle. apply Qcle_not_lt in Hle. apply Hle.
  replace ((0 + 1) / (0 + 1 + 0 + 0 + 0 + 0))%Qc with 1%Qc; [done|].
  by apply Qc_is_canon.
Qed.

Lemma sum_sure : sum [1; 0; 0; 0; 0]%Qc = 1%Qc.
Proof. by apply Qc_is_canon. Qed.

(** With the sure predictor every pass appends id 2 and its token. *)
Lemma generate_step_sure n rng i x rest predicted :
  5 ≤ n → (rng i < 1)%Qc →
  generate_step (stub n) rng vocabulary i (x :: rest, predicted)
  = inr (rest ++ [2], predicted ++ ["cat"]).
Proof.
  intros Hn Hu. unfold generate_step, stub.
  rewrite topk_one_hot by done. cbn [bind]. rewrite sum_sure.
  rewrite decide_False by done.
  rewrite random_choice_sure by done. cbn [bind].
  change (dict_get vocabulary 2) with (Some "cat"). cbn [lookup_or bind].
  by rewrite set_last_roll_left.
Qed.

(** C1, as the code has it: the scenario of the specification, for a sure
    predictor over at least five ids (the code takes the top 5 whatever the
    vocabulary) and any draws of the generator. The window starts as the pad
    ids with the prime id last, slides once per pass, and ends as
    [0, 1, 2, 2]; the tokens are [the, cat, cat]. *)
Theorem generate_scenario n (rng : nat → Qc) :
  5 ≤ n → (∀ i, (0 ≤ rng i)%Qc ∧ (rng i < 1)%Qc) →
  generate_init 4 vocabulary 1 0 = inr ([0; 0; 0; 1], ["the"]) ∧
  generate_state 4 (stub n) rng vocabulary 1 0 1
  = inr ([0; 0; 1; 2], ["the"; "cat"]) ∧
  generate_state 4 (stub n) rng vocabulary 1 0 2
  = inr ([0; 1; 2; 2], ["the"; "cat"; "cat"]) ∧
  generate 4 (stub n) rng vocabulary token_lookup 1 0 2 = inr "the cat cat".
Proof.
  intros Hn Hrng.
  assert (generate_state 4 (stub n) rng vocabulary 1 0 2
          = inr ([0; 1; 2; 2], ["the"; "cat"; "cat"])) as H2.
  { unfold generate_state.
    change (generate_init 4 vocabulary 1 0) with (ret ([0; 0; 0; 1], ["the"])).
    cbn [bind ret generate_loop].
    rewrite generate_step_sure by (done || apply Hrng). cbn [bind app].
    by rewrite generate_step_sure by (done || apply Hrng). }
  split_and!; [done| |done|].
  - unfold generate_state.
    change (generate_init 4 vocabulary 1 0) with (ret ([0; 0; 0; 1], ["the"])).
    cbn [bind ret generate_loop].
    by rewrite generate_step_sure by (done || apply Hrng).
  - unfold generate. by rewrite H2.
Qed.

Lemma generate_scenario_witness :
  generate_init 4 vocabulary 1 0 = inr ([0; 0; 0; 1], ["the"]) ∧
  generate_state 4 (stub 5) (λ _, Q2Qc (1 # 2)) vocabulary 1 0 1
  = inr ([0; 0; 1; 2], ["the"; "cat"]) ∧
  generate_state 4 (stub 5) (λ _, Q2Qc (1 # 2)) vocabulary 1 0 2
  = inr ([0; 1; 2; 2], ["the"; "cat"; "cat"]) ∧
  generate 4 (stub 5) (λ _, Q2Qc (1 # 2)) vocabulary token_lookup 1 0 2
  = inr "the cat cat".
Proof.
  apply (generate_scenario 5 (λ _, Q2Qc (1 # 2))); [lia|].
  intros _. split; [discriminate|reflexivity].
Defined.

(** C1 as stated fails: a predictor with one entry per id of the four-word
    vocabulary gives [topk] fewer entries than the 5 that the code asks for,
    and [generate] raises in its first pass, whatever the draws. *)
Lemma generate_scenario_four_ids :
  stub 4 [0; 0; 0; 1] = [0; 0; 1; 0]%Qc ∧
  (∀ rng, generate_state 4 (stub 4) rng vocabulary 1 0 2 = inl RuntimeError) ∧
  (∀ rng, generate 4 (stub 4) rng vocabulary token_lookup 1 0 2 = inl RuntimeError).
Proof. done. Qed.

(** *** A distribution whose top [top_k] probabilities sum to zero *)

Lemma generate_loop_add rnn rng int_to_vocab n m i st :
  generate_loop rnn rng int_to_vocab (n + m) i st
  = bind (generate_loop rnn rng int_to_vocab n i st)
         (generate_loop rnn rng int_to_vocab m (i + n)).
Proof.
  revert i st. induction n as [|n IH]; intros i st; simpl.
  - by rewrite Nat.add_0_r.
  - destruct (generate_step rnn rng int_to_vocab i st) as [e|st1]; [done|].
    simpl. rewrite IH. by replace (S i + n) with (i + S n) by lia.
Qed.

(** *** The text *)

Lemma replace_scan_cons old new a t :
  replace_scan old new 0 (String a t)
  = if String.prefix old (String a t)
    then new +:+ replace_scan old new (String.length old - 1) t
    else String a (replace_scan old new 0 t).
Proof. done. Qed.

Lemma drop_space_after_cons c a b t :
  drop_space_after c (String a (String b t))
  = if decide (a = c ∧ b = " "%char)
    then String a (drop_space_after c t)
    else String a (drop_space_after c (String b t)).
Proof. done. Qed.

Lemma prefix_pair c a b t :
  String.prefix (String c " ") (String a (String b t))
  = bool_decide (a = c ∧ b = " "%char).
Proof.
  cbn [String.prefix].
  destruct (ascii_dec c a) as [->|Hca].
  - destruct (ascii_dec " " b) as [<-|Hb].
    + rewrite bool_decide_eq_true_2 by done. by destruct t.
    + by rewrite bool_decide_eq_false_2 by (intros [_ ->]; done).
  - by rewrite bool_decide_eq_false_2 by (intros [-> _]; done).
Qed.

(** [replace(c + ' ', c)] takes out the space after [c]. *)
Lemma replace_drop_space c s :
  replace (String c " ") (String c "") s = drop_space_after c s.
Proof.
  unfold replace.
  cut (replace_scan (String c " ") (String c "") 0 s = drop_space_after c s
       ∧ ∀ a, replace_scan (String c " ") (String c "") 0 (String a s)
              = drop_space_after c (String a s)); [by intros []|].
  induction s as [|b s [IH1 IH2]].
  - split; [done|]. intros a. cbn. by destruct (ascii_dec c a).
  - split; [apply IH2|]. intros a.
    rewrite replace_scan_cons, drop_space_after_cons, prefix_pair.
    destruct (decide (a = c ∧ b = " "%char)) as [[-> ->]|Hn].
    + rewrite bool_decide_eq_true_2 by done.
      cbn [String.length Nat.sub replace_scan]. by rewrite IH1.
    + rewrite bool_decide_eq_false_2 by done. by rewrite IH2.
Qed.

(** The operations of the specification are those of Python. *)
Lemma lowercase_char_eq c : lowercase_char c = lower_char c.
Proof. by destruct c as [[] [] [] [] [] [] [] []]. Qed.

Lemma lowercase_eq s : lowercase s = lower s.
Proof. induction s as [|c s IH]; [done|]. simpl. by rewrite lowercase_char_eq, IH. Qed.

Lemma join_cons_app sep a b rest :
  join sep ((a +:+ b) :: rest) = a +:+ join sep (b :: rest).
Proof. destruct rest; [done|]. apply str_app_assoc. Qed.

Lemma spaced_eq tokens : spaced tokens = join " " tokens.
Proof.
  destruct tokens as [|t rest]; [done|]. unfold spaced. revert t.
  induction rest as [|w rest IH]; intros t; [done|].
  cbn [foldl]. by rewrite IH, !join_cons_app.
Qed.

Lemma replace_scan_after old new k s :
  replace_scan old new k s = replace_scan old new 0 (after k s).
Proof.
  revert s. induction k as [|k IH]; intros s; [by destruct s|].
  destruct s as [|c t]; [done|]. apply IH.
Qed.

Lemma length_after n s : String.length (after n s) ≤ String.length s.
Proof.
  revert s. induction n as [|n IH]; intros [|c t]; simpl; try lia.
  specialize (IH t). lia.
Qed.

Lemma replace_all_fuel_eq a o new fuel s :
  String.length s ≤ fuel →
  replace_all_fuel fuel (String a o) new s = replace_scan (String a o) new 0 s.
Proof.
  revert s. induction fuel as [|fuel IH]; intros [|c t] Hlen; simpl in Hlen;
    [done|lia|done|].
  cbn [replace_all_fuel]. rewrite replace_scan_cons.
  destruct (String.prefix _ _); [|by rewrite IH by lia].
  cbn [String.length after]. replace (S (String.length o) - 1)
    with (String.length o) by lia.
  rewrite (replace_scan_after _ _ (String.length o) t). f_equal. apply IH.
  pose proof (length_after (String.length o) t). lia.
Qed.

Lemma replace_all_eq a o new s :
  replace_all (String a o) new s = replace (String a o) new s.
Proof. by apply replace_all_fuel_eq. Qed.

(** With a dictionary whose items are the placeholders themselves,
    [generate] makes of its tokens the text that the specification
    describes. *)
Lemma detokenize_meets_spec token_dict tokens :
  detokenize token_dict tokens = detokenize_spec tokens token_dict.
Proof.
  unfold detokenize, detokenize_spec. cbv zeta.
  rewrite !replace_drop_space, spaced_eq. do 2 f_equal.
  generalize (join " " tokens). induction token_dict as [|[k t] d IH]; intros s.
  - done.
  - cbn [foldl fst snd]. rewrite IH. f_equal.
    rewrite lowercase_eq. symmetry. apply replace_all_eq.
Qed.

(** C2: on the dictionary that the preprocessing notebook pickles,
    [generate] does not detokenize. The items of [token_lookup] are the
    placeholders with a space on either side, so the loop under [# Replace
    punctuation tokens] looks for a placeholder after two spaces and finds
    none: for the tables of a small corpus and a predictor that favours the
    id of [<period>], [generate] returns the placeholders as they are, where
    the detokenization of the specification gives the full stops. Given the
    placeholders without the spaces, the same [generate] gives the full
    stops too. *)
Theorem generate_keeps_placeholders :
  let int_to_vocab :=
    [(0, "a"); (1, "cat"); (2, "sat"); (3, "<period>"); (4, "<PAD>")] in
  let tokens := ["cat"; "<period>"; "<period>"] in
  token_lookup !! 0 = Some (".", " <PERIOD> ") ∧
  punctuation_map token_lookup !! 0 = Some (".", "<PERIOD>") ∧
  generate_state 3 peaked (λ _, 0%Qc) int_to_vocab 1 4 2
  = inr ([1; 3; 3], tokens) ∧
  generate 3 peaked (λ _, 0%Qc) int_to_vocab token_lookup 1 4 2
  = inr "cat <period> <period>" ∧
  detokenize_spec tokens (punctuation_map token_lookup) = "cat.." ∧
  generate 3 peaked (λ _, 0%Qc) int_to_vocab (punctuation_map token_lookup) 1 4 2
  = inr "cat..".
Proof. cbv zeta. split_and!; by vm_compute. Qed.

(** The placeholders of [Preprocess.token_lookup] have a space of their own on
    both sides, which the joined tokens never show after the space that the
    pattern starts with: with that map the loop replaces nothing. *)
Example detokenize_token_lookup :
  detokenize token_lookup ["the"; "<period>"; "(" ; "<new_line>"; "cat"]
  = "the <period> (<new_line> cat"
  ∧ detokenize [(".", "<PERIOD>"); (String "010" "", "<NEW_LINE>")]
      ["the"; "<period>"; "<new_line>"; "cat"]
    = String "t" (String "h" (String "e" (String "." (String "010" "cat")))).
Proof. done. Qed.

End generate_facts.


(** * More of the preprocessing notebook *)

(** ** What [clean_text] returns *)
Section cleaned.
Implicit Types (c ch : ascii) (text : string) (P : dict string string).

Lemma has_space_normal_form ch text :
  has_char ch (lower (join " " (split text))) = true →
  isspace ch = true → ch = " "%char.
Proof.
  intros (a & Ha & <-)%has_char_lower. rewrite isspace_lower_char. intros Hsp.
  apply has_char_join in Ha as [Ha|(w & Hw & Ha)].
  - simpl in Ha. rewrite orb_false_r in Ha.
    by apply bool_decide_eq_true in Ha as <-.
  - pose proof (split_wordlike text) as Hall.
    rewrite Forall_forall in Hall. destruct (Hall w Hw) as [_ Hns].
    by rewrite (Hns a Ha) in Hsp.
Qed.

Lemma join_split_normal_form text :
  let n := lower (join " " (split text)) in join " " (split n) = n.
Proof.
  simpl. rewrite split_lower, split_join by apply split_wordlike.
  by rewrite lower_join.
Qed.

(** X1: whatever the punctuation map, the text that [clean_text] returns is
    in normal form: splitting it into words and joining them with single
    spaces, or lower-casing it, gives the same text again; it has none of
    the letters A to Z, and of the ASCII white-space characters (tab,
    newline and the like) it has the space only. *)
Theorem clean_text_normal_form text P :
  let cleaned := clean_text text P in
  join " " (split cleaned) = cleaned ∧
  lower cleaned = cleaned ∧
  (∀ ch, isupper ch = true → has_char ch cleaned = false) ∧
  (∀ ch, isspace ch = true → has_char ch cleaned = true → ch = " "%char).
Proof.
  unfold clean_text. cbv zeta. split_and!.
  - apply join_split_normal_form.
  - apply lower_idemp.
  - intros ch Hch. by apply lower_no_upper.
  - intros ch Hsp Hch. by apply (has_space_normal_form ch _ Hch).
Qed.

(** A character that is a key of its own, and that no placeholder has, is
    gone after the loop of [clean_text]. *)
Lemma substitute_removes c text P :
  Forall (λ kv, has_char c kv.2 = false) P →
  String c "" ∈ keys P →
  has_char c (substitute text P) = false.
Proof.
  intros HP. revert text. unfold keys.
  induction HP as [|[k v] P Hv HP IH]; intros text; [by intros ?%elem_of_nil|].
  intros [Hk|Hin]%elem_of_cons.
  - simpl in Hk. subst k. cbn [substitute foldl fst snd].
    apply (substitute_no_new_char c _ P HP). by apply replace_char_gone.
  - by apply IH.
Qed.

Lemma clean_text_removes c text P :
  Forall (λ kv, has_char c kv.2 = false) P →
  String c "" ∈ keys P →
  c ≠ " "%char → islower c = false →
  has_char c (clean_text text P) = false.
Proof.
  intros HP Hk Hsp Hlow. unfold clean_text. fold (substitute text P).
  destruct (has_char c (lower _)) eqn:Hc; [|done].
  apply has_char_normal_form in Hc; [|done..].
  by rewrite substitute_removes in Hc.
Qed.

(** The characters of the keys of [token_lookup]. *)
Lemma token_lookup_key_chars c text :
  c ∈ [".";"!";"?";",";"034";";";"(";")";"-";"010"]%char →
  has_char c (clean_text text token_lookup) = false.
Proof.
  intros Hc.
  repeat (apply elem_of_cons in Hc as [->|Hc];
          [apply clean_text_removes; [by repeat constructor|compute_done|done..]|]).
  by apply elem_of_nil in Hc.
Qed.

Lemma token_lookup_outside text :
  Forall (λ kv, chars_outside kv.1 (clean_text text token_lookup) = true)
         token_lookup.
Proof.
  repeat constructor; cbn [fst chars_outside];
    rewrite ?token_lookup_key_chars; try done; set_solver.
Qed.

(** X2: with the punctuation map of [token_lookup], no character of any key
    of the map is left in the text that [clean_text] returns: every
    punctuation mark and every newline of the input has become a
    placeholder. *)
Theorem clean_text_no_punctuation text :
  let cleaned := clean_text text token_lookup in
  Forall (λ kv, chars_outside kv.1 cleaned = true) token_lookup ∧
  Forall (λ c, has_char c cleaned = false)
         [".";"!";"?";",";"034";";";"(";")";"-";"010"]%char.
Proof.
  split; [apply token_lookup_outside|].
  apply Forall_forall. intros c Hc. by apply token_lookup_key_chars.
Qed.

(** X3: with the punctuation map of [token_lookup], [clean_text] is
    idempotent on every text: cleaning a cleaned text changes nothing. *)
Theorem clean_text_token_lookup_idempotent text :
  clean_text (clean_text text token_lookup) token_lookup
  = clean_text text token_lookup.
Proof.
  set (cleaned := clean_text text token_lookup).
  unfold clean_text at 1. fold (substitute cleaned token_lookup).
  rewrite substitute_absent.
  - unfold cleaned, clean_text. apply normal_form_idemp.
  - pose proof (token_lookup_outside text) as Hout. fold cleaned in Hout.
    assert (Forall (λ kv : string * string, has_mark kv.1 = true) token_lookup)
      as Hmark by by repeat constructor.
    assert (Forall (λ kv : string * string,
                      has_mark kv.1 = true ∧ chars_outside kv.1 cleaned = true)
                   token_lookup) as HP by by apply Forall_and.
    eapply Forall_impl; [exact HP|].
    intros [k v] [(c & Hc & _)%has_mark_spec Ho]. exists c. split; [done|].
    by apply (chars_outside_spec k).
Qed.

End cleaned.

(** ** [load_directory] *)
Section corpus.
Implicit Types (a b w : string) (sp : ascii) (ws l : list string).

Lemma cons_word_app w ws l : cons_word w (ws ++ l) = cons_word w ws ++ l.
Proof. by destruct w. Qed.

Lemma split_scan_app_space a sp b :
  isspace sp = true →
  split_scan (a +:+ String sp b) = ((split_scan a).1, (split_scan a).2 ++ split b).
Proof.
  intros Hsp. induction a as [|c a IH].
  - by rewrite str_app_nil_l, split_scan_cons, Hsp.
  - rewrite str_app_cons, !split_scan_cons.
    destruct (isspace c); [|by rewrite IH].
    rewrite (split_eq (a +:+ String sp b)), IH. cbn [fst snd].
    by rewrite cons_word_app, <-split_eq.
Qed.

(** White space between two texts keeps their words apart. *)
Lemma split_app_space a sp b :
  isspace sp = true → split (a +:+ String sp b) = split a ++ split b.
Proof.
  intros Hsp. rewrite (split_eq (a +:+ _)), split_scan_app_space by done.
  cbn [fst snd]. by rewrite cons_word_app, <-split_eq.
Qed.

Lemma split_join_concat l : split (join " " l) = concat (split <$> l).
Proof.
  induction l as [|a [|b l] IH]; [done| |].
  - simpl. by rewrite app_nil_r.
  - change (join " " (a :: b :: l)) with (a +:+ String " " (join " " (b :: l))).
    rewrite split_app_space by done. by rewrite IH.
Qed.

(** X4: the words of the text that [load_directory] returns are the words of
    the [.txt] files, file after file in the order of the listing: no word
    runs over the end of a file, and the other files add nothing. So the
    words of two listings put together are the words of the one followed by
    the words of the other. *)
Theorem load_directory_words (data_dir more : list (string * string)) :
  split (Files.load_directory data_dir)
  = concat ((λ f, split f.2)
              <$> filter (λ f, Files.endswith f.1 ".txt" = true) data_dir) ∧
  split (Files.load_directory (data_dir ++ more))
  = split (Files.load_directory data_dir) ++ split (Files.load_directory more).
Proof.
  assert (∀ d, split (Files.load_directory d)
               = concat ((λ f, split f.2)
                           <$> filter (λ f, Files.endswith f.1 ".txt" = true) d))
    as Hd.
  { intros d. unfold Files.load_directory. cbv zeta.
    by rewrite split_join_concat, <-list_fmap_compose. }
  split; [apply Hd|].
  by rewrite !Hd, filter_app, fmap_app, concat_app.
Qed.

End corpus.

(** ** [filter_text] once more *)
Section filter_text_twice.
Implicit Types (text t : string) (tokens : list string).

Lemma filter_all {A} (Q : A → Prop) `{!∀ x, Decision (Q x)} (l : list A) :
  Forall Q l → filter Q l = l.
Proof.
  induction 1 as [|x l Hx _ IH]; [done|].
  by rewrite filter_cons, decide_True, IH.
Qed.

Lemma filter_text_wordlike text : Forall wordlike (filter_text text).
Proof.
  rewrite filter_text_eq. apply Forall_forall.
  intros t [_ Hin]%list_elem_of_filter.
  pose proof (split_wordlike text) as Hall. rewrite Forall_forall in Hall.
  by apply Hall.
Qed.

(** The words that are kept are frequent among the words that are kept. *)
Lemma filter_text_frequent text :
  Forall (λ t, min_frequency < occurrences t (filter_text text)) (filter_text text).
Proof.
  rewrite filter_text_eq. apply Forall_forall.
  intros t [Ht _]%list_elem_of_filter.
  by rewrite (occurrences_filter
                (λ t, min_frequency < occurrences t (split text))).
Qed.

(** X5: every word of the result of [filter_text] occurs more than
    [min_frequency] times in the result itself, and filtering the result
    (joined into a text again) a second time drops nothing. *)
Theorem filter_text_stable text :
  let out := filter_text text in
  Forall (λ t, min_frequency < occurrences t out) out ∧
  filter_text (join " " out) = out.
Proof.
  cbv zeta. split; [apply filter_text_frequent|].
  rewrite filter_text_join by apply filter_text_wordlike.
  apply (filter_all (λ t, min_frequency < occurrences t (filter_text text))),
    filter_text_frequent.
Qed.

End filter_text_twice.

(** ** [preprocess_and_save_data] *)
Section preprocess.
Implicit Types (all_text_data t : string) (tokens : list string)
  (int_text : list nat).

(** What [preprocess_and_save_data] pickles: the tables read off the sorted
    words, and for each token its place among the sorted words. *)
Lemma preprocess_and_save_data_eq all_text_data :
  let tokens := corpus_tokens all_text_data in
  ∃ int_text,
    preprocess_and_save_data all_text_data
    = Some (int_text,
            (λ iw, (iw.2, iw.1)) <$> enumerate (sorted_words tokens),
            enumerate (sorted_words tokens), token_lookup) ∧
    Forall2 (λ t i, sorted_words tokens !! i = Some t) tokens int_text.
Proof.
  cbv zeta. unfold preprocess_and_save_data. cbv zeta.
  fold (corpus_tokens all_text_data). set (tokens := corpus_tokens all_text_data).
  rewrite create_lookup_tables_eq.
  set (vocab_to_int := (λ iw, (iw.2, iw.1)) <$> enumerate (sorted_words tokens)).
  assert (is_Some (mapM (dict_get vocab_to_int) tokens)) as [int_text Hint].
  { apply mapM_is_Some, Forall_forall. intros t Ht.
    assert (t ∈ sorted_words tokens) as [i Hi]%list_elem_of_lookup
      by (apply elem_of_sorted_words; by left).
    exists i. apply dict_get_swap_enumerate; [apply NoDup_sorted_words|done]. }
  exists int_text. rewrite Hint. split; [done|].
  apply mapM_Some in Hint. eapply Forall2_impl; [exact Hint|].
  intros t i Hti. by apply dict_get_swap_enumerate in Hti;
    [|apply NoDup_sorted_words].
Qed.

(** X6: [preprocess_and_save_data] never fails, and what it saves decodes:
    looking the ids of [int_text] up in [int_to_vocab] gives the filtered
    tokens of the cleaned text back, in their order; every id is a key of
    [int_to_vocab]. *)
Theorem preprocess_round_trip all_text_data :
  ∃ int_text vocab_to_int int_to_vocab,
    preprocess_and_save_data all_text_data
    = Some (int_text, vocab_to_int, int_to_vocab, token_lookup) ∧
    mapM (dict_get int_to_vocab) int_text
    = Some (filter_text (clean_text all_text_data token_lookup)) ∧
    mapM (dict_get vocab_to_int) (filter_text (clean_text all_text_data token_lookup))
    = Some int_text ∧
    Forall (λ i, i < length int_to_vocab) int_text.
Proof.
  destruct (preprocess_and_save_data_eq all_text_data) as (int_text & Heq & Hall).
  fold (corpus_tokens all_text_data). set (tokens := corpus_tokens all_text_data) in *.
  eexists int_text, _, _. split; [exact Heq|]. split_and!.
  - apply mapM_Some, Forall2_flip. eapply Forall2_impl; [exact Hall|].
    intros t i Hi. unfold flip. by rewrite dict_get_enumerate.
  - apply mapM_Some. eapply Forall2_impl; [exact Hall|].
    intros t i Hi. by apply dict_get_swap_enumerate; [apply NoDup_sorted_words|].
  - eapply Forall2_Forall_r; [exact Hall|]. apply Forall_forall.
    intros t _ i Hi. unfold enumerate. rewrite length_imap.
    by apply lookup_lt_Some in Hi.
Qed.

(** A token that is counted once, after tokens that are all counted more
    often, is the last of the sorted words. *)
Lemma sorted_words_pad_last tokens :
  "<PAD>" ∉ tokens →
  Forall (λ t, 1 < occurrences t tokens) tokens →
  sorted_words tokens !! (length (sorted_words tokens) - 1) = Some "<PAD>".
Proof.
  intros Hpad Hfreq.
  assert ("<PAD>" ∈ sorted_words tokens) as [i Hi]%list_elem_of_lookup
    by (apply elem_of_sorted_words; by right).
  destruct (decide (i = length (sorted_words tokens) - 1)) as [<-|Hne]; [done|].
  pose proof (lookup_lt_Some _ _ _ Hi) as Hlt.
  destruct (lookup_lt_is_Some_2 (sorted_words tokens) (S i)) as [b Hb]; [lia|].
  pose proof (sorted_desc_sorted (λ w, occurrences w (counted tokens)) _
                (NoDup_keys_Counter (counted tokens))) as Hs.
  pose proof (StronglySorted_lookup _ _ _ _ _ _ Hs Hi Hb (Nat.lt_succ_diag_r i))
    as Hprec.
  assert (b ≠ "<PAD>") as Hbp.
  { intros ->. pose proof (NoDup_sorted_words tokens) as Hnd.
    pose proof (NoDup_lookup _ _ _ _ Hnd Hi Hb). lia. }
  assert (b ∈ tokens) as Hbt.
  { apply list_elem_of_lookup_2, elem_of_sorted_words in Hb as [?|?]; done. }
  rewrite Forall_forall in Hfreq. specialize (Hfreq b Hbt).
  apply (not_iff_compat (occurrences_pos _ _)) in Hpad.
  unfold precedes, counted in Hprec. rewrite !occurrences_snoc in Hprec.
  rewrite (decide_True (P := "<PAD>" = "<PAD>")) in Hprec by done.
  rewrite (decide_False (P := "<PAD>" = b)) in Hprec by done. lia.
Qed.

Lemma occurrences_Forall2 {A B} `{EqDecision A, EqDecision B}
    (R : A → B → Prop) (l : list A) (k : list B) x y :
  Forall2 R l k →
  (∀ x' y', R x' y' → (x' = x ↔ y' = y)) →
  occurrences y k = occurrences x l.
Proof.
  intros Hall HR. unfold occurrences.
  induction Hall as [|x' y' l k Hxy _ IH]; [done|].
  rewrite !filter_cons. specialize (HR x' y' Hxy).
  destruct (decide (x' = x)) as [Hx|Hx], (decide (y' = y)) as [Hy|Hy];
    simpl; rewrite ?IH; tauto.
Qed.

(** X7: in what [preprocess_and_save_data] saves, the padding token has the
    last id, which no token of the corpus has: [int_text] is free of the
    padding id, and every id that is in [int_text] is there more than
    [min_frequency] times. *)
Theorem preprocess_pad_id all_text_data :
  ∃ int_text vocab_to_int int_to_vocab,
    preprocess_and_save_data all_text_data
    = Some (int_text, vocab_to_int, int_to_vocab, token_lookup) ∧
    dict_get vocab_to_int "<PAD>" = Some (length int_to_vocab - 1) ∧
    Forall (λ i, i < length int_to_vocab - 1) int_text ∧
    Forall (λ i, min_frequency < occurrences i int_text) int_text.
Proof.
  destruct (preprocess_and_save_data_eq all_text_data) as (int_text & Heq & Hall).
  set (tokens := corpus_tokens all_text_data) in *.
  pose proof (NoDup_sorted_words tokens) as Hnd.
  assert (Forall (λ t, min_frequency < occurrences t tokens) tokens) as Hfreq
    by apply filter_text_frequent.
  assert (sorted_words tokens !! (length (sorted_words tokens) - 1) = Some "<PAD>")
    as Hlast.
  { apply sorted_words_pad_last; [apply pad_not_in_cleaned_tokens|].
    eapply Forall_impl; [exact Hfreq|]. intros t Ht. cbv beta in Ht |- *.
    unfold min_frequency in Ht. lia. }
  assert (length (enumerate (sorted_words tokens)) = length (sorted_words tokens))
    as Hlen by (unfold enumerate; by rewrite length_imap).
  eexists int_text, _, _. split; [exact Heq|]. rewrite Hlen. split_and!.
  - by apply dict_get_swap_enumerate.
  - eapply Forall2_Forall_r; [exact Hall|]. apply Forall_forall.
    intros t Ht i Hi. pose proof (lookup_lt_Some _ _ _ Hi).
    destruct (decide (i = length (sorted_words tokens) - 1)) as [->|]; [|lia].
    exfalso. apply (pad_not_in_cleaned_tokens all_text_data token_lookup).
    fold (corpus_tokens all_text_data). fold tokens. congruence.
  - eapply Forall2_Forall_r; [exact Hall|].
    rewrite Forall_forall in Hfreq. apply Forall_forall.
    intros t Ht i Hi.
    rewrite (occurrences_Forall2 _ tokens int_text t i Hall); [by apply Hfreq|].
    intros t' i' Hi'. split.
    + intros ->. by apply (NoDup_lookup _ _ _ _ Hnd Hi' Hi).
    + intros ->. congruence.
Qed.

End preprocess.

(** * More of the generation notebook *)

(** ** [generate]: the first state, and the window *)
Section generate_more.
Implicit Types (current_seq w : list nat) (predicted : list string) (u : Qc)
  (rnn : list nat → list Qc) (rng : nat → Qc) (int_to_vocab : dict nat string).

(** What a pass that goes through has done. *)
Lemma generate_step_inr rnn rng int_to_vocab i w predicted w' predicted' :
  generate_step rnn rng int_to_vocab i (w, predicted) = inr (w', predicted') →
  ∃ x rest p top_i word_i word,
    w = x :: rest ∧
    topk (rnn w) top_k = inr (p, top_i) ∧
    sum p ≠ 0%Qc ∧
    random_choice top_i ((λ q, q / sum p)%Qc <$> p) (rng i) = inr word_i ∧
    dict_get int_to_vocab word_i = Some word ∧
    w' = rest ++ [word_i] ∧
    predicted' = predicted ++ [word].
Proof.
  unfold generate_step.
  destruct (topk (rnn w) top_k) as [e|[p top_i]]; [done|]. simpl.
  destruct (decide (sum p = 0%Qc)) as [|Hs]; [done|].
  destruct (random_choice top_i _ (rng i)) as [e|word_i] eqn:Hc; [done|]. simpl.
  destruct (dict_get int_to_vocab word_i) as [word|] eqn:Hw; [|done]. simpl.
  rewrite set_last_roll_left. destruct w as [|x rest]; [done|].
  intros [= <- <-]. by exists x, rest, p, top_i, word_i, word.
Qed.

Lemma set_last_replicate n pad_value prime_id :
  set_last (replicate (S n) pad_value) prime_id
  = inr (replicate n pad_value ++ [prime_id]).
Proof.
  rewrite replicate_S_end.
  by rewrite <-(set_last_roll_left (pad_value :: replicate n pad_value)).
Qed.

Lemma generate_init_eq sequence_length int_to_vocab prime_id pad_value :
  generate_init sequence_length int_to_vocab prime_id pad_value
  = match sequence_length with
    | 0 => inl IndexError
    | S n =>
        match dict_get int_to_vocab prime_id with
        | Some word => inr (replicate n pad_value ++ [prime_id], [word])
        | None => inl KeyError
        end
    end.
Proof.
  unfold generate_init. destruct sequence_length as [|n]; [done|].
  rewrite set_last_replicate. cbn [bind].
  by destruct (dict_get int_to_vocab prime_id).
Qed.

(** X8: for a prime id and a pad id that fit the window, [generate] raises
    before its first pass [IndexError] when [sequence_length] is 0, whatever
    its other arguments, and [KeyError] when the prime id is no key of
    [int_to_vocab]; in both cases the network is not asked and [predict_len]
    plays no part. *)
Theorem generate_init_errors
    sequence_length rnn rng int_to_vocab token_dict prime_id pad_value predict_len :
  fits_window prime_id → fits_window pad_value →
  (sequence_length = 0 →
   generate sequence_length rnn rng int_to_vocab token_dict
     prime_id pad_value predict_len = inl IndexError) ∧
  (0 < sequence_length → dict_get int_to_vocab prime_id = None →
   generate sequence_length rnn rng int_to_vocab token_dict
     prime_id pad_value predict_len = inl KeyError).
Proof.
  intros _ _. unfold generate, generate_state. rewrite generate_init_eq. split.
  - by intros ->.
  - intros Hlen Hkey. destruct sequence_length; [lia|]. by rewrite Hkey.
Qed.

Lemma generate_init_errors_witness :
  (4 = 0 →
   generate 4 peaked (λ _, 0%Qc) vocabulary token_lookup 7 0 2 = inl IndexError) ∧
  (0 < 4 → dict_get vocabulary 7 = None →
   generate 4 peaked (λ _, 0%Qc) vocabulary token_lookup 7 0 2 = inl KeyError).
Proof. apply generate_init_errors; reflexivity. Defined.

(** X9: with [predict_len] 0 (a window of length at least 1, a prime id and
    a pad id that fit it, a prime id that is a key), [generate] returns the
    text of the prime token alone and leaves the window as it is first made,
    the pad ids followed by the prime id; the network and the generator have
    no say in it. *)
Theorem generate_predict_len_0
    sequence_length rnn rng int_to_vocab token_dict prime_id pad_value word :
  fits_window prime_id → fits_window pad_value →
  0 < sequence_length →
  dict_get int_to_vocab prime_id = Some word →
  generate_state sequence_length rnn rng int_to_vocab prime_id pad_value 0
  = inr (replicate (sequence_length - 1) pad_value ++ [prime_id], [word]) ∧
  generate sequence_length rnn rng int_to_vocab token_dict prime_id pad_value 0
  = inr (detokenize token_dict [word]).
Proof.
  intros _ _ Hlen Hkey. unfold generate, generate_state.
  rewrite generate_init_eq. destruct sequence_length as [|n]; [lia|].
  rewrite Hkey. cbn [bind generate_loop ret].
  by replace (S n - 1) with n by lia.
Qed.

Lemma generate_predict_len_0_witness :
  generate_state 4 (stub 4) (λ _, 0%Qc) vocabulary 1 0 0
  = inr (replicate (4 - 1) 0 ++ [1], ["the"]) ∧
  generate 4 (stub 4) (λ _, 0%Qc) vocabulary token_lookup 1 0 0
  = inr (detokenize token_lookup ["the"]).
Proof.
  apply generate_predict_len_0; [reflexivity..|lia|reflexivity].
Defined.

Lemma generate_loop_window rnn rng int_to_vocab m i w predicted w' predicted' :
  generate_loop rnn rng int_to_vocab m i (w, predicted) = inr (w', predicted') →
  ∃ ids tokens,
    length ids = m ∧
    mapM (dict_get int_to_vocab) ids = Some tokens ∧
    predicted' = predicted ++ tokens ∧
    w' = drop m (w ++ ids).
Proof.
  revert i w predicted. induction m as [|m IH]; intros i w predicted.
  - intros [= <- <-]. exists [], []. by rewrite !app_nil_r.
  - cbn [generate_loop].
    destruct (generate_step rnn rng int_to_vocab i (w, predicted))
      as [e|[w1 pr1]] eqn:Hstep; [done|]. cbn [bind]. intros Hloop.
    apply generate_step_inr in Hstep
      as (x & rest & p & top_i & word_i & word & -> & _ & _ & _ & Hw & -> & ->).
    apply IH in Hloop as (ids & tokens & Hlen & Hmap & -> & ->).
    exists (word_i :: ids), (word :: tokens). split_and!.
    + simpl. by rewrite Hlen.
    + simpl. by rewrite Hw, Hmap.
    + by rewrite <-app_assoc.
    + by rewrite <-app_assoc.
Qed.

(** X10: when [generate] has made [predict_len] passes, the window is what
    is left of the pad ids, the prime id and the sampled ids after dropping
    the [predict_len] oldest, and the tokens are those of the prime id and
    of the sampled ids, in that order: the window always ends with the ids
    of the latest tokens. *)
Theorem generate_state_window
    sequence_length rnn rng int_to_vocab prime_id pad_value predict_len
    w predicted :
  generate_state sequence_length rnn rng int_to_vocab prime_id pad_value predict_len
  = inr (w, predicted) →
  ∃ ids,
    length ids = predict_len ∧
    mapM (dict_get int_to_vocab) (prime_id :: ids) = Some predicted ∧
    w = drop predict_len
          (replicate (sequence_length - 1) pad_value ++ prime_id :: ids).
Proof.
  unfold generate_state. rewrite generate_init_eq.
  destruct sequence_length as [|n]; [done|].
  destruct (dict_get int_to_vocab prime_id) as [word|] eqn:Hkey; [|done].
  cbn [bind]. intros (ids & tokens & Hlen & Hmap & -> & ->)%generate_loop_window.
  exists ids. split_and!; [done| |].
  - simpl. by rewrite Hkey, Hmap.
  - replace (S n - 1) with n by lia. by rewrite <-app_assoc.
Qed.

Lemma generate_state_window_witness :
  ∃ ids,
    length ids = 2 ∧
    mapM (dict_get vocabulary) (1 :: ids) = Some ["the"; "cat"; "cat"] ∧
    [0; 1; 2; 2] = drop 2 (replicate (4 - 1) 0 ++ 1 :: ids).
Proof.
  apply (generate_state_window 4 (stub 5) (λ _, 0%Qc) vocabulary 1 0 2).
  reflexivity.
Defined.

End generate_more.

(** ** [generate]: the sampled id *)
Section sampling.
Implicit Types (p w P : list Qc) (a top_i : list nat) (u q c acc s : Qc).
Local Open Scope Qc_scope.

Lemma sum_cons q p : sum (q :: p) = q + sum p.
Proof. done. Qed.

Lemma length_cumsum_from acc w : length (cumsum_from acc w) = length w.
Proof. revert acc. induction w as [|q w IH]; intros acc; simpl; by rewrite ?IH. Qed.

Lemma last_cumsum_from acc w :
  w ≠ [] → last (cumsum_from acc w) = Some (acc + sum w).
Proof.
  revert acc. induction w as [|q [|q' w] IH]; intros acc Hw; [done| |].
  - unfold sum. simpl. by rewrite Qcplus_0_r.
  - change (cumsum_from acc (q :: q' :: w))
      with ((acc + q) :: cumsum_from (acc + q) (q' :: w)).
    destruct (cumsum_from (acc + q) (q' :: w)) as [|c cdf] eqn:Hcdf; [done|].
    rewrite last_cons_cons, <-Hcdf, IH by done.
    by rewrite (sum_cons q), Qcplus_assoc.
Qed.

(** Weights that sum to 1 have cumulative sums that end in 1: dividing by
    the last one changes nothing. *)
Lemma cdf_normalised w :
  w ≠ [] → sum w = 1 →
  (λ c, c / default 1 (last (cumsum w))) <$> cumsum w = cumsum w.
Proof.
  intros Hw Hsum. unfold cumsum. rewrite last_cumsum_from by done.
  rewrite Hsum, Qcplus_0_l. simpl.
  rewrite <-(list_fmap_id (cumsum_from 0 w)) at 2.
  apply list_fmap_ext. intros _ c _. apply (right_id 1 Qcdiv).
Qed.

(** The entry at which the draw is located is a positive weight. *)
Lemma searchsorted_positive acc w u q :
  acc ≤ u →
  w !! searchsorted_right (cumsum_from acc w) u = Some q → 0 < q.
Proof.
  revert acc. induction w as [|x w IH]; intros acc Hacc; [done|].
  cbn [cumsum_from searchsorted_right].
  destruct (decide (acc + x ≤ u)) as [Hle|Hgt].
  - cbn [lookup list_lookup]. by apply IH.
  - intros [= ->]. apply Qcnot_le_lt in Hgt.
    apply (Qcplus_lt_mono_l 0 q acc). rewrite Qcplus_0_r.
    by eapply Qcle_lt_trans.
Qed.

(** A draw below the last cumulative sum is located at some entry. *)
Lemma searchsorted_lt (cdf : list Qc) u c :
  last cdf = Some c → u < c → (searchsorted_right cdf u < length cdf)%nat.
Proof.
  intros Hlast Hu. induction cdf as [|c0 [|c1 cdf] IH]; [done| |].
  - injection Hlast as ->. simpl.
    rewrite decide_False by by apply Qclt_not_le. lia.
  - rewrite last_cons_cons in Hlast. specialize (IH Hlast).
    cbn [searchsorted_right] in *.
    destruct (decide (c0 ≤ u)); simpl in *; lia.
Qed.

(** What [random_choice] has checked when it returns an element. *)
Lemma random_choice_inr a w u x :
  random_choice a w u = inr x →
  a ≠ [] ∧ length w = length a ∧ Forall (λ q, 0 ≤ q) w ∧ sum w = 1 ∧
  a !! searchsorted_right (cumsum w) u = Some x.
Proof.
  unfold random_choice.
  destruct (decide (a = [])) as [|Ha]; [done|].
  destruct (decide (length w ≠ length a)) as [|Hlen]; [done|].
  destruct (decide (Exists (λ q, q < 0) w)) as [|Hneg]; [done|].
  destruct (decide (sum w ≠ 1)) as [|Hsum]; [done|].
  apply dec_stable in Hlen. apply dec_stable in Hsum.
  assert (w ≠ []) as Hw by (intros ->; by destruct a).
  rewrite cdf_normalised by done.
  destruct (a !! _) as [y|] eqn:Hy; [|done]. intros [= <-].
  split_and!; try done.
  apply not_Exists_Forall in Hneg; [|apply _].
  eapply Forall_impl; [exact Hneg|]. intros q Hq. by apply Qcnot_lt_le.
Qed.

(** [topk] pairs every value with the index it has in the row. *)
Lemma topk_lookup P k p top_i j i :
  topk P k = inr (p, top_i) →
  top_i !! j = Some i →
  ∃ q, p !! j = Some q ∧ P !! i = Some q ∧ (j < k)%nat ∧
       sorted_desc Qclt snd (enumerate P) !! j = Some (i, q).
Proof.
  unfold topk. destruct (decide (k ≤ length P)%nat); [|done].
  intros [= <- <-]. rewrite !list_lookup_fmap.
  destruct (take k _ !! j) as [[i' q]|] eqn:Hj; [|done].
  intros [= <-]. exists q. apply lookup_take_Some in Hj as [Hj Hlt].
  split_and!; try done.
  apply list_elem_of_lookup_2 in Hj.
  rewrite sorted_desc_Permutation in Hj. by apply elem_of_enumerate.
Qed.

Lemma topk_lengths P k p top_i :
  topk P k = inr (p, top_i) →
  length p = k ∧ length top_i = k ∧ Forall (λ q, q ∈ P) p.
Proof.
  unfold topk. destruct (decide (k ≤ length P)%nat) as [Hk|]; [|done].
  intros [= <- <-].
  assert (length (sorted_desc Qclt snd (enumerate P)) = length P) as Hlen.
  { rewrite sorted_desc_Permutation. unfold enumerate. by rewrite length_imap. }
  rewrite !length_fmap, length_take_le by lia. split_and!; try done.
  apply Forall_fmap, Forall_take, Forall_forall. intros [i q] Hin.
  rewrite sorted_desc_Permutation in Hin.
  apply elem_of_enumerate in Hin. simpl. by apply list_elem_of_lookup_2 in Hin.
Qed.

(** The sampled id, the place it has among the top [top_k], and the
    probability the network gave it. *)
Lemma generate_step_sample
    rnn rng int_to_vocab i (w : list nat) predicted (w' : list nat) predicted' :
  generate_step rnn rng int_to_vocab i (w, predicted) = inr (w', predicted') →
  0 ≤ rng i →
  ∃ word_i q j,
    w' = tail w ++ [word_i] ∧
    rnn w !! word_i = Some q ∧ q ≠ 0 ∧
    sorted_desc Qclt snd (enumerate (rnn w)) !! j = Some (word_i, q) ∧
    (j < top_k)%nat.
Proof.
  intros (x & rest & p & top_i & word_i & word & -> & Htop & Hs & Hc & _ & -> & _)
    %generate_step_inr Hu.
  apply random_choice_inr in Hc as (_ & _ & _ & _ & Hidx).
  set (j := searchsorted_right _ _) in Hidx.
  destruct (topk_lookup _ _ _ _ _ _ Htop Hidx) as (q & Hq & HP & Hj & Hsorted).
  exists word_i, q, j. split_and!; try done.
  intros ->.
  assert (((λ q, q / sum p) <$> p) !! j = Some (0 / sum p)) as Hw
    by by rewrite list_lookup_fmap, Hq.
  apply (searchsorted_positive 0 _ (rng i)) in Hw; [|done].
  unfold Qcdiv in Hw. rewrite Qcmult_0_l in Hw. by apply Qclt_not_eq in Hw.
Qed.

(** X11: the id that a pass appends to the window is an index of the
    distribution that the network returned for the window, and (for a draw
    that is not negative) its probability there is not zero: [generate]
    never emits a token that the network has excluded. *)
Theorem generate_step_nonzero
    rnn rng int_to_vocab i (w : list nat) predicted (w' : list nat) predicted' :
  generate_step rnn rng int_to_vocab i (w, predicted) = inr (w', predicted') →
  0 ≤ rng i →
  ∃ word_i q,
    w' = tail w ++ [word_i] ∧ rnn w !! word_i = Some q ∧ q ≠ 0.
Proof.
  intros Hstep Hu.
  destruct (generate_step_sample _ _ _ _ _ _ _ _ Hstep Hu)
    as (word_i & q & j & ? & ? & ? & _).
  by exists word_i, q.
Qed.

Lemma generate_step_nonzero_witness :
  ∃ (word_i : nat) q,
    [0; 0; 1; 2]%nat = tail [0; 0; 0; 1]%nat ++ [word_i] ∧
    stub 5 [0; 0; 0; 1]%nat !! word_i = Some q ∧ q ≠ 0.
Proof.
  apply (generate_step_nonzero (stub 5) (λ _, 0) vocabulary 0%nat
           [0; 0; 0; 1]%nat ["the"] [0; 0; 1; 2]%nat ["the"; "cat"]);
    [reflexivity|discriminate].
Defined.

(** *** The five largest *)

Lemma insert_desc_Qc_sorted (x : nat * Qc) (l : list (nat * Qc)) :
  StronglySorted (λ y z : nat * Qc, z.2 ≤ y.2) l →
  StronglySorted (λ y z : nat * Qc, z.2 ≤ y.2) (insert_desc Qclt snd x l).
Proof.
  induction 1 as [|y l Hl IH Hy]; simpl; [by repeat constructor|].
  destruct (decide (x.2 < y.2)) as [Hlt|Hge].
  - constructor; [done|]. rewrite insert_desc_Permutation.
    constructor; [by apply Qclt_le_weak|done].
  - apply Qcnot_lt_le in Hge. constructor; [by constructor|].
    constructor; [done|]. eapply Forall_impl; [exact Hy|].
    intros z Hz. simpl in *. by eapply Qcle_trans.
Qed.

Lemma sorted_desc_Qc_sorted (l : list (nat * Qc)) :
  StronglySorted (λ y z : nat * Qc, z.2 ≤ y.2) (sorted_desc Qclt snd l).
Proof.
  induction l as [|x l IH]; simpl; [constructor|].
  by apply insert_desc_Qc_sorted.
Qed.

Lemma length_filter_fmap {A B} (f : A → B) (Q : B → Prop)
    `{!∀ y, Decision (Q y)} (l : list A) :
  length (filter Q (f <$> l)) = length (filter (λ x, Q (f x)) l).
Proof.
  induction l as [|x l IH]; [done|]. rewrite fmap_cons, !filter_cons.
  destruct (decide (Q (f x))); simpl; by rewrite IH.
Qed.

Lemma filter_none {A} (Q : A → Prop) `{!∀ x, Decision (Q x)} (l : list A) :
  Forall (λ x, ¬ Q x) l → filter Q l = [].
Proof.
  induction 1 as [|x l Hx _ IH]; [done|].
  by rewrite filter_cons, decide_False, IH.
Qed.

(** From a place in a descending list on, nothing is greater than what
    stands at that place. *)
Lemma filter_greater_sorted (srt : list (nat * Qc)) j i q :
  StronglySorted (λ y z : nat * Qc, z.2 ≤ y.2) srt →
  srt !! j = Some (i, q) →
  (length (filter (λ x, (q < x.2)%Qc) srt) ≤ j)%nat.
Proof.
  intros Hs Hj.
  rewrite <-(take_drop j srt), filter_app, length_app.
  assert (filter (λ x, q < x.2) (drop j srt) = []) as ->.
  { apply filter_none, Forall_forall. intros [i' q'] Hin Hlt.
    simpl in Hlt.
    apply list_elem_of_lookup in Hin as [m Hm]. rewrite lookup_drop in Hm.
    destruct m as [|m].
    - rewrite Nat.add_0_r, Hj in Hm. injection Hm as <- <-.
      by apply Qclt_not_eq in Hlt.
    - assert (j < j + S m)%nat as Hjm by lia.
      pose proof (StronglySorted_lookup _ _ _ _ _ _ Hs Hj Hm Hjm) as Hle.
      simpl in Hle. by apply Qcle_not_lt in Hle. }
  pose proof (length_filter (λ x : nat * Qc, q < x.2) (take j srt)).
  rewrite length_take in *. simpl. lia.
Qed.

(** X12: the id that a pass appends is one of the [top_k] most probable:
    fewer than [top_k] entries of the distribution that the network returned
    are greater than the probability of the sampled id. *)
Theorem generate_step_top_k
    rnn rng int_to_vocab i (w : list nat) predicted (w' : list nat) predicted' :
  generate_step rnn rng int_to_vocab i (w, predicted) = inr (w', predicted') →
  0 ≤ rng i →
  ∃ word_i q,
    w' = tail w ++ [word_i] ∧ rnn w !! word_i = Some q ∧
    (length (filter (λ q', (q < q')%Qc) (rnn w)) < top_k)%nat.
Proof.
  intros Hstep Hu.
  destruct (generate_step_sample _ _ _ _ _ _ _ _ Hstep Hu)
    as (word_i & q & j & ? & ? & _ & Hj & Hlt).
  exists word_i, q. split_and!; try done.
  rewrite <-(snd_enumerate (rnn w)) at 1.
  rewrite length_filter_fmap.
  rewrite <-(sorted_desc_Permutation Qclt snd (enumerate (rnn w))).
  pose proof (filter_greater_sorted _ _ _ _
                (sorted_desc_Qc_sorted (enumerate (rnn w))) Hj).
  lia.
Qed.

Lemma generate_step_top_k_witness :
  ∃ (word_i : nat) q,
    [0; 0; 1; 2]%nat = tail [0; 0; 0; 1]%nat ++ [word_i] ∧
    stub 5 [0; 0; 0; 1]%nat !! word_i = Some q ∧
    (length (filter (λ q', (q < q')%Qc) (stub 5 [0; 0; 0; 1])) < top_k)%nat.
Proof.
  apply (generate_step_top_k (stub 5) (λ _, 0) vocabulary 0%nat
           [0; 0; 0; 1]%nat ["the"] [0; 0; 1; 2]%nat ["the"; "cat"]);
    [reflexivity|discriminate].
Defined.

End sampling.

(** ** [generate]: the text *)
Section detokenize_more.
Implicit Types (a b c x : ascii) (s t w r old new : string)
  (ws predicted : list string) (token_dict : dict string string).

Lemma adjacent_cons a b x s : adjacent a b (String x s) = false → adjacent a b s = false.
Proof.
  destruct s as [|y s]; [done|].
  change (adjacent a b (String x (String y s)))
    with (bool_decide (x = a ∧ y = b) || adjacent a b (String y s)).
  by intros [_ ?]%orb_false_iff.
Qed.

Lemma prefix_adjacent a b r s :
  String.prefix (String a (String b r)) s = true → adjacent a b s = true.
Proof.
  destruct s as [|x [|y s]]; simpl; [done| |].
  - by destruct (ascii_dec a x).
  - destruct (ascii_dec a x) as [->|]; [|done].
    destruct (ascii_dec b y) as [->|]; [|done].
    intros _. by rewrite bool_decide_eq_true_2.
Qed.

(** A pattern that starts with two characters which the text never has side
    by side is not found. *)
Lemma replace_not_adjacent a b r new s :
  adjacent a b s = false → replace (String a (String b r)) new s = s.
Proof.
  unfold replace. induction s as [|x s IH]; [done|]. intros Hadj.
  cbn [replace_scan].
  destruct (String.prefix _ (String x s)) eqn:Hp.
  - by rewrite (prefix_adjacent _ _ _ _ Hp) in Hadj.
  - by rewrite IH by by apply adjacent_cons in Hadj.
Qed.

Lemma adjacent_absent a b s : has_char b s = false → adjacent a b s = false.
Proof.
  induction s as [|x s IH]; [done|]. intros [_ Hs]%orb_false_iff.
  destruct s as [|y s]; [done|].
  change (adjacent a b (String x (String y s)))
    with (bool_decide (x = a ∧ y = b) || adjacent a b (String y s)).
  rewrite IH by done. rewrite orb_false_r. apply bool_decide_eq_false.
  intros [_ ->]. simpl in Hs. by rewrite bool_decide_eq_true_2 in Hs.
Qed.

Lemma adjacent_space_app w t :
  nospace w →
  adjacent " " " " (w +:+ String " " t) = adjacent " " " " (String " " t).
Proof.
  induction w as [|x w IH]; [done|]. intros [Hx Hw]%nospace_inv.
  rewrite str_app_cons, <-IH by done.
  destruct (w +:+ String " " t) as [|y s] eqn:Hs; [by destruct w|].
  change (adjacent " " " " (String x (String y s)))
    with (bool_decide (x = " "%char ∧ y = " "%char) || adjacent " " " " (String y s)).
  rewrite bool_decide_eq_false_2; [done|]. by intros [-> _].
Qed.

(** The text of tokens joined by single spaces has no two spaces side by
    side, and starts with a character of the first token. *)
Lemma adjacent_space_join ws :
  Forall wordlike ws →
  adjacent " " " " (join " " ws) = false ∧
  adjacent " " " " (String " " (join " " ws)) = false.
Proof.
  induction 1 as [|w ws [Hne Hw] Hws [IH1 IH2]]; [done|].
  assert (has_char " " w = false) as Hsp.
  { destruct (has_char " " w) eqn:Hc; [|done]. by apply Hw in Hc. }
  assert (adjacent " " " " (join " " (w :: ws)) = false) as Hj.
  { destruct ws as [|w' ws]; [by apply adjacent_absent|].
    change (join " " (w :: w' :: ws)) with (w +:+ String " " (join " " (w' :: ws))).
    by rewrite adjacent_space_app, IH2. }
  split; [done|].
  destruct (join " " (w :: ws)) as [|y s] eqn:Hs.
  { destruct ws; [done|]. by destruct w. }
  change (adjacent " " " " (String " " (String y s)))
    with (bool_decide (" "%char = " "%char ∧ y = " "%char)
          || adjacent " " " " (String y s)).
  rewrite Hj, orb_false_r. apply bool_decide_eq_false. intros [_ ->].
  destruct w as [|x w]; [done|].
  assert (x = " "%char) as ->.
  { destruct ws; simpl in Hs; [|rewrite str_app_cons in Hs]; congruence. }
  done.
Qed.

Lemma has_char_join_tokens c ws :
  isspace c = true → c ≠ " "%char → Forall wordlike ws →
  has_char c (join " " ws) = false.
Proof.
  intros Hc Hne Hws. destruct (has_char c (join " " ws)) eqn:Hj; [|done].
  apply has_char_join in Hj as [Hj|(w & Hw & Hj)].
  - simpl in Hj. rewrite orb_false_r in Hj.
    by apply bool_decide_eq_true in Hj.
  - rewrite Forall_forall in Hws. destruct (Hws w Hw) as [_ Hns].
    by rewrite (Hns c Hj) in Hc.
Qed.

(** The loop of [generate] over a dictionary whose placeholders all start
    with a space changes nothing in a text without two spaces side by
    side: it looks for the placeholder after one more space. *)
Lemma detokenize_loop_spaced token_dict s :
  Forall (λ kt, ∃ t, kt.2 = String " " t) token_dict →
  adjacent " " " " s = false →
  foldl (λ gen_sentences kt,
           let ending :=
             if bool_decide (kt.1 ∈ [String "010" ""; "("; String "034" ""])
             then " " else "" in
           replace (" " +:+ lower kt.2) kt.1 gen_sentences) s token_dict = s.
Proof.
  intros Hd Hs. induction Hd as [|[k v] d [t Ht] _ IH]; [done|].
  cbn [foldl fst snd]. simpl in Ht. subst v.
  change (" " +:+ lower (String " " t)) with (String " " (String " " (lower t))).
  by rewrite replace_not_adjacent.
Qed.

(** What [generate] makes of tokens when every placeholder of the
    dictionary starts with a space. *)
Lemma detokenize_join token_dict predicted :
  Forall (λ kt, ∃ t, kt.2 = String " " t) token_dict →
  Forall wordlike predicted →
  detokenize token_dict predicted = replace "( " "(" (join " " predicted).
Proof.
  intros Hd Hws. unfold detokenize. cbv zeta.
  rewrite detokenize_loop_spaced by (done || by apply adjacent_space_join).
  rewrite (replace_absent "010" (String "010" " ")); [done..|].
  by apply has_char_join_tokens.
Qed.

Lemma has_char_join_absent c ws :
  c ≠ " "%char → Forall (λ w, has_char c w = false) ws →
  has_char c (join " " ws) = false.
Proof.
  intros Hc Hws. destruct (has_char c (join " " ws)) eqn:Hj; [|done].
  apply has_char_join in Hj as [Hj|(w & Hw & Hj)].
  - simpl in Hj. rewrite orb_false_r in Hj. by apply bool_decide_eq_true in Hj.
  - rewrite Forall_forall in Hws. by rewrite (Hws w Hw) in Hj.
Qed.

Lemma token_lookup_spaced :
  Forall (λ kt : string * string, ∃ t, kt.2 = String " " t) token_lookup.
Proof. repeat constructor; eexists; reflexivity. Qed.

(** X13: with a dictionary whose placeholders all start with a space, as
    those of [token_lookup] do, the replacements of [generate] find nothing
    in the text of tokens joined by single spaces: the text that is returned
    is the joined tokens, but for the space after a left parenthesis; when no
    token has a left parenthesis it is the joined tokens as they are. *)
Theorem detokenize_spaced_placeholders token_dict predicted :
  Forall (λ kt, ∃ t, kt.2 = String " " t) token_dict →
  Forall wordlike predicted →
  detokenize token_dict predicted = replace "( " "(" (join " " predicted) ∧
  (Forall (λ w, has_char "(" w = false) predicted →
   detokenize token_dict predicted = join " " predicted).
Proof.
  intros Hd Hws. split; [by apply detokenize_join|].
  intros Hpar. rewrite detokenize_join by done.
  apply (replace_absent "("); [done|]. by apply has_char_join_absent.
Qed.

End detokenize_more.

Lemma detokenize_spaced_placeholders_witness :
  detokenize token_lookup ["the"; "<period>"; "cat"]
  = replace "( " "(" (join " " ["the"; "<period>"; "cat"]) ∧
  (Forall (λ w, has_char "(" w = false) ["the"; "<period>"; "cat"] →
   detokenize token_lookup ["the"; "<period>"; "cat"]
   = join " " ["the"; "<period>"; "cat"]).
Proof.
  apply detokenize_spaced_placeholders.
  - repeat constructor; eexists; reflexivity.
  - apply (split_wordlike "the <period> cat").
Defined.

(** ** [generate]: when it returns *)
Section generate_returns.
Implicit Types (p : list Qc) (top_i : list nat) (u q s : Qc)
  (rnn : list nat → list Qc) (rng : nat → Qc) (int_to_vocab : dict nat string).
Local Open Scope Qc_scope.

Lemma sum_pos p : p ≠ [] → Forall (λ q, 0 < q) p → 0 < sum p.
Proof.
  intros Hp Hall. induction Hall as [|q p Hq Hall IH]; [done|].
  rewrite sum_cons. destruct p as [|q' p].
  - unfold sum. simpl. by rewrite Qcplus_0_r.
  - apply Qcplus_pos_pos; [done|]. by apply IH.
Qed.

Lemma sum_div p s : sum ((λ q, q / s) <$> p) = sum p / s.
Proof.
  induction p as [|q p IH].
  - unfold sum, Qcdiv. simpl. by rewrite Qcmult_0_l.
  - rewrite fmap_cons, !sum_cons, IH. unfold Qcdiv.
    by rewrite Qcmult_plus_distr_l.
Qed.

(** Positive weights, divided by their sum, are weights that
    [random_choice] accepts; a draw below 1 then picks an element. *)
Lemma random_choice_total top_i p u :
  top_i ≠ [] → length p = length top_i → Forall (λ q, 0 < q) p → u < 1 →
  ∃ word_i, random_choice top_i ((λ q, q / sum p) <$> p) u = inr word_i ∧
            word_i ∈ top_i.
Proof.
  intros Ha Hlen Hpos Hu.
  assert (p ≠ []) as Hp by (intros ->; by destruct top_i).
  pose proof (sum_pos p Hp Hpos) as Hs.
  set (w := (λ q, q / sum p) <$> p).
  assert (w ≠ []) as Hw by (unfold w; by destruct p).
  assert (sum w = 1) as Hsum.
  { unfold w. rewrite sum_div. apply Qcmult_inv_r.
    intros H0. rewrite H0 in Hs. by apply Qclt_not_eq in Hs. }
  unfold random_choice.
  rewrite decide_False by done.
  rewrite decide_False by (unfold w; rewrite length_fmap; by intros []).
  rewrite decide_False.
  2:{ intros (q & Hq & Hneg)%Exists_exists. unfold w in Hq.
      apply list_elem_of_fmap in Hq as (q0 & -> & Hq0).
      rewrite Forall_forall in Hpos.
      assert (0 < q0 / sum p) as Hq
        by (apply Qcmult_pos_pos; [by apply Hpos|by apply Qcinv_pos]).
      apply Qclt_le_weak in Hq. by apply Qcle_not_lt in Hq. }
  rewrite decide_False by by intros [].
  rewrite cdf_normalised by done.
  assert (searchsorted_right (cumsum w) u < length top_i)%nat as Hidx.
  { rewrite <-Hlen. replace (length p) with (length (cumsum w))
      by (unfold cumsum, w; by rewrite length_cumsum_from, length_fmap).
    apply (searchsorted_lt _ _ 1); [|done].
    unfold cumsum. rewrite last_cumsum_from by done.
    by rewrite Hsum, Qcplus_0_l. }
  apply lookup_lt_is_Some_2 in Hidx as [word_i Hi].
  exists word_i. rewrite Hi. split; [done|].
  by apply list_elem_of_lookup_2 in Hi.
Qed.

(** A pass goes through when the network gives the window at least
    [top_k] probabilities, all positive, and every index of them has a
    token. *)
Lemma generate_step_total rnn rng int_to_vocab i (w : list nat) predicted :
  w ≠ [] →
  (top_k ≤ length (rnn w))%nat →
  Forall (λ q, 0 < q) (rnn w) →
  (∀ j, (j < length (rnn w))%nat → is_Some (dict_get int_to_vocab j)) →
  rng i < 1 →
  ∃ st', generate_step rnn rng int_to_vocab i (w, predicted) = inr st'.
Proof.
  intros Hw Hk Hpos Hkeys Hu. unfold generate_step.
  destruct (topk (rnn w) top_k) as [e|[p top_i]] eqn:Htop.
  { unfold topk in Htop. by rewrite decide_True in Htop. }
  cbn [bind].
  destruct (topk_lengths _ _ _ _ Htop) as (Hlp & Hlt & Hin).
  assert (Forall (λ q, 0 < q) p) as Hp.
  { rewrite Forall_forall in Hpos. eapply Forall_impl; [exact Hin|].
    intros q Hq. by apply Hpos. }
  assert (top_i ≠ []) as Ht by (intros ->; done).
  assert (p ≠ []) as Hpn by (intros ->; done).
  rewrite decide_False.
  2:{ intros H0. pose proof (sum_pos p Hpn Hp) as Hs. rewrite H0 in Hs.
      by apply Qclt_not_eq in Hs. }
  destruct (random_choice_total top_i p (rng i)) as (word_i & -> & Hi);
    [done|congruence|done..|].
  cbn [bind].
  apply list_elem_of_lookup in Hi as [j Hj].
  destruct (topk_lookup _ _ _ _ _ _ Htop Hj) as (q & _ & Hq & _).
  apply lookup_lt_Some in Hq.
  destruct (Hkeys word_i Hq) as [word ->]. cbn [lookup_or bind].
  rewrite set_last_roll_left. destruct w as [|x rest]; [done|].
  by eexists.
Qed.

Lemma generate_loop_total sequence_length rnn rng int_to_vocab n i st :
  (0 < sequence_length)%nat →
  length st.1 = sequence_length →
  (∀ w : list nat, length w = sequence_length →
     (top_k ≤ length (rnn w))%nat ∧ Forall (λ q, 0 < q) (rnn w) ∧
     ∀ j, (j < length (rnn w))%nat → is_Some (dict_get int_to_vocab j)) →
  (∀ j, rng j < 1) →
  ∃ st', generate_loop rnn rng int_to_vocab n i st = inr st'.
Proof.
  intros Hlen Hst Hrnn Hrng. revert i st Hst.
  induction n as [|n IH]; intros i [w predicted] Hst; [by eexists|].
  simpl in Hst. cbn [generate_loop].
  destruct (Hrnn w Hst) as (Hk & Hpos & Hkeys).
  destruct (generate_step_total rnn rng int_to_vocab i w predicted)
    as [st1 Hstep]; [by intros ->; simpl in Hst; lia|done..|].
  rewrite Hstep. cbn [bind]. apply IH.
  apply generate_step_lengths in Hstep as [-> _]. done.
Qed.

Lemma generate_state_inr
    sequence_length rnn rng int_to_vocab prime_id pad_value predict_len :
  (0 < sequence_length)%nat →
  is_Some (dict_get int_to_vocab prime_id) →
  (∀ w : list nat, length w = sequence_length →
     (top_k ≤ length (rnn w))%nat ∧ Forall (λ q, 0 < q) (rnn w) ∧
     ∀ j, (j < length (rnn w))%nat → is_Some (dict_get int_to_vocab j)) →
  (∀ j, rng j < 1) →
  ∃ st,
    generate_state sequence_length rnn rng int_to_vocab
      prime_id pad_value predict_len = inr st.
Proof.
  intros Hlen [word Hkey] Hrnn Hrng. unfold generate_state.
  rewrite generate_init_eq. destruct sequence_length as [|n]; [lia|].
  rewrite Hkey. cbn [bind].
  apply (generate_loop_total (S n)); [lia| |done..].
  simpl. rewrite length_app, length_replicate. simpl. lia.
Qed.

(** X14: [generate] returns a text, whatever [predict_len], when the window
    has a length of at least 1, the prime id and the pad id fit it, the
    prime id has a token, every draw of the generator is below 1, and the
    network gives every window of that length at least [top_k]
    probabilities, all of them positive, whose indices all have tokens. *)
Theorem generate_total
    sequence_length rnn rng int_to_vocab token_dict prime_id pad_value predict_len :
  fits_window prime_id → fits_window pad_value →
  (0 < sequence_length)%nat →
  is_Some (dict_get int_to_vocab prime_id) →
  (∀ w : list nat, length w = sequence_length →
     (top_k ≤ length (rnn w))%nat ∧ Forall (λ q, 0 < q) (rnn w) ∧
     ∀ j, (j < length (rnn w))%nat → is_Some (dict_get int_to_vocab j)) →
  (∀ j, rng j < 1) →
  ∃ text,
    generate sequence_length rnn rng int_to_vocab token_dict
      prime_id pad_value predict_len = inr text.
Proof.
  intros _ _ Hlen Hkey Hrnn Hrng. unfold generate.
  destruct (generate_state_inr sequence_length rnn rng int_to_vocab
              prime_id pad_value predict_len) as [[w predicted] ->]; [done..|].
  cbn [bind]. by eexists.
Qed.

Lemma generate_total_witness :
  ∃ text,
    generate 20 uniform5 (λ _, 0) vocabulary5 token_lookup 1 0 400 = inr text.
Proof.
  apply generate_total.
  - reflexivity.
  - reflexivity.
  - lia.
  - by eexists.
  - intros w _. split_and!.
    + reflexivity.
    + by repeat constructor.
    + intros j Hj. unfold uniform5 in Hj. rewrite length_replicate in Hj.
      do 5 (destruct j as [|j]; [by eexists|]). lia.
  - done.
Defined.

End generate_returns.

(** ** [generate]: the sum of the top probabilities *)
Section softmax.
Implicit Types (p P : list Qc) (top_i : list nat) (u q : Qc)
  (rnn : list nat → list Qc) (rng : nat → Qc) (int_to_vocab : dict nat string).
Local Open Scope Qc_scope.







End softmax.

(** ** From [preprocess_and_save_data] to the printed script *)
Section pipeline.
Implicit Types (all_text_data prime_word w : string) (tokens : list string)
  (rnn : list nat → list Qc) (rng : nat → Qc).

(** What is pickled, read back. *)
Lemma preprocess_and_save_data_tables
    all_text_data int_text vocab_to_int int_to_vocab token_dict :
  preprocess_and_save_data all_text_data
  = Some (int_text, vocab_to_int, int_to_vocab, token_dict) →
  vocab_to_int
  = (λ iw, (iw.2, iw.1)) <$> enumerate (sorted_words (corpus_tokens all_text_data)) ∧
  int_to_vocab = enumerate (sorted_words (corpus_tokens all_text_data)) ∧
  token_dict = token_lookup.
Proof.
  destruct (preprocess_and_save_data_eq all_text_data) as (int_text' & -> & _).
  intros Heq%(inj Some).
  apply pair_equal_spec in Heq as [Heq <-].
  apply pair_equal_spec in Heq as [Heq <-].
  apply pair_equal_spec in Heq as [_ <-]. done.
Qed.

(** The words of the vocabulary are tokens without a left parenthesis. *)
Lemma sorted_words_corpus_tokens all_text_data w :
  w ∈ sorted_words (corpus_tokens all_text_data) →
  wordlike w ∧ has_char "(" w = false.
Proof.
  intros [Hw| ->]%elem_of_sorted_words.
  - split.
    + pose proof (filter_text_wordlike (clean_text all_text_data token_lookup))
        as Hall. rewrite Forall_forall in Hall. by apply Hall.
    + unfold corpus_tokens in Hw. rewrite filter_text_eq in Hw.
      apply list_elem_of_filter in Hw as [_ Hw].
      destruct (has_char "(" w) eqn:Hc; [|done].
      apply (has_char_split _ _ _ Hw) in Hc.
      rewrite token_lookup_key_chars in Hc; [done|].
      do 6 apply list_elem_of_further. apply list_elem_of_here.
  - split; [|done].
    pose proof (split_wordlike "<PAD>") as Hall.
    by apply Forall_inv in Hall.
Qed.

Lemma generated_script_words
    all_text_data sequence_length gen_length prime_word rnn rng text :
  let tokens := corpus_tokens all_text_data in
  Notebook.generated_script sequence_length gen_length prime_word rnn rng
    ((λ iw, (iw.2, iw.1)) <$> enumerate (sorted_words tokens))
    (enumerate (sorted_words tokens)) token_lookup = inr text →
  ∃ words,
    length words = gen_length ∧
    Forall (λ w, w ∈ tokens ∨ w = "<PAD>") (prime_word :: words) ∧
    text = Notebook.clean_text (join " " (prime_word :: words)).
Proof.
  cbv zeta. set (sw := sorted_words (corpus_tokens all_text_data)).
  unfold Notebook.generated_script.
  destruct (dict_get _ prime_word) as [prime_id|] eqn:Hprime; [|done].
  apply dict_get_swap_enumerate in Hprime; [|apply NoDup_sorted_words].
  cbn [lookup_or bind].
  destruct (dict_get _ Notebook.pad_word) as [pad_value|]; [|done].
  cbn [lookup_or bind]. unfold generate, generate_state.
  rewrite generate_init_eq. destruct sequence_length as [|n]; [done|].
  rewrite dict_get_enumerate. fold sw. rewrite Hprime. cbn [bind].
  destruct (generate_loop _ _ _ _ _ _) as [e|[cs predicted]] eqn:Hloop; [done|].
  cbn [bind ret]. intros [= <-].
  apply generate_loop_window in Hloop as (ids & words & Hlen & Hmap & -> & _).
  apply mapM_Some in Hmap.
  assert (Forall (λ w, w ∈ sw) words) as Hin.
  { eapply Forall2_Forall_r; [exact Hmap|]. apply Forall_forall.
    intros i _ w Hw. rewrite dict_get_enumerate in Hw.
    by apply list_elem_of_lookup_2 in Hw. }
  assert (Forall (λ w, w ∈ sw) (prime_word :: words)) as Hall.
  { constructor; [|done]. by apply list_elem_of_lookup_2 in Hprime. }
  exists words. split_and!.
  - by rewrite <-(Forall2_length _ _ _ Hmap).
  - eapply Forall_impl; [exact Hall|]. intros w Hw. by apply elem_of_sorted_words.
  - f_equal. change ([prime_word] ++ words) with (prime_word :: words).
    rewrite detokenize_join; [|apply token_lookup_spaced|].
    + apply (replace_absent "("); [done|]. apply has_char_join_absent; [done|].
      eapply Forall_impl; [exact Hall|]. intros w Hw.
      by apply sorted_words_corpus_tokens in Hw as [? ?].
    + eapply Forall_impl; [exact Hall|]. intros w Hw.
      by apply sorted_words_corpus_tokens in Hw as [? ?].
Qed.

(** X15: the last cell, run on what [preprocess_and_save_data] saved.
    A prime word that is no token of the corpus (and is not the padding
    token) raises [KeyError]. When the cell prints, the replacements of
    [generate] have changed nothing: the script is [clean_text] of the
    generation notebook applied to the prime word and [gen_length] words of
    the vocabulary, joined by single spaces. *)
Theorem generated_script_pipeline
    all_text_data int_text vocab_to_int int_to_vocab token_dict
    sequence_length gen_length prime_word rnn rng :
  preprocess_and_save_data all_text_data
  = Some (int_text, vocab_to_int, int_to_vocab, token_dict) →
  let script :=
    Notebook.generated_script sequence_length gen_length prime_word rnn rng
      vocab_to_int int_to_vocab token_dict in
  (prime_word ∉ corpus_tokens all_text_data → prime_word ≠ "<PAD>" →
   script = inl KeyError) ∧
  (∀ text, script = inr text →
     ∃ words,
       length words = gen_length ∧
       Forall (λ w, w ∈ corpus_tokens all_text_data ∨ w = "<PAD>") words ∧
       text = Notebook.clean_text (join " " (prime_word :: words))).
Proof.
  intros (-> & -> & ->)%preprocess_and_save_data_tables. cbv zeta. split.
  - intros Hw Hpad. unfold Notebook.generated_script.
    destruct (dict_get _ prime_word) as [i|] eqn:Hi; [|done].
    apply dict_get_swap_enumerate in Hi; [|apply NoDup_sorted_words].
    apply list_elem_of_lookup_2, elem_of_sorted_words in Hi as [?|?]; done.
  - intros text (words & Hlen & Hall & ->)%generated_script_words.
    exists words. split_and!; [done| |done]. by apply Forall_inv_tail in Hall.
Qed.

End pipeline.

Lemma generated_script_pipeline_witness :
  let script :=
    Notebook.generated_script 3 2 "cat" uniform5 (λ _, Q2Qc (7 # 10))
      [("a", 0); ("cat", 1); ("sat", 2); ("<period>", 3); ("<PAD>", 4)]
      [(0, "a"); (1, "cat"); (2, "sat"); (3, "<period>"); (4, "<PAD>")]
      token_lookup in
  ("cat" ∉ corpus_tokens "a cat sat. a cat sat. a cat sat. a cat sat." →
   "cat" ≠ "<PAD>" → script = inl KeyError) ∧
  (∀ text, script = inr text →
     ∃ words,
       length words = 2 ∧
       Forall (λ w, w ∈ corpus_tokens "a cat sat. a cat sat. a cat sat. a cat sat."
                    ∨ w = "<PAD>") words ∧
       text = Notebook.clean_text (join " " ("cat" :: words))).
Proof.
  apply (generated_script_pipeline
           "a cat sat. a cat sat. a cat sat. a cat sat."
           [0; 1; 2; 3; 0; 1; 2; 3; 0; 1; 2; 3; 0; 1; 2; 3]).
  reflexivity.
Defined.

(** ** When the last cell prints *)
Section pipeline_total.
Implicit Types (all_text_data prime_word : string)
  (rnn : list nat → list Qc) (rng : nat → Qc).

(** X16: the last cell prints a script when it is run on what
    [preprocess_and_save_data] saved with a prime word that is a token of
    the corpus, a vocabulary of at least [top_k] words, a window of length
    at least 1, draws below 1, and a network that gives every window as many
    probabilities as the vocabulary has words, all of them positive: neither
    of the two look-ups of [vocab_to_int] nor any of [int_to_vocab] fails. *)
Theorem generated_script_total
    all_text_data int_text vocab_to_int int_to_vocab token_dict
    sequence_length gen_length prime_word rnn rng :
  preprocess_and_save_data all_text_data
  = Some (int_text, vocab_to_int, int_to_vocab, token_dict) →
  prime_word ∈ corpus_tokens all_text_data →
  0 < sequence_length →
  top_k ≤ length int_to_vocab →
  (∀ w : list nat, length w = sequence_length →
     length (rnn w) = length int_to_vocab ∧ Forall (λ q, 0 < q)%Qc (rnn w)) →
  (∀ j, rng j < 1)%Qc →
  ∃ text,
    Notebook.generated_script sequence_length gen_length prime_word rnn rng
      vocab_to_int int_to_vocab token_dict = inr text.
Proof.
  intros (-> & -> & ->)%preprocess_and_save_data_tables Hprime Hlen Hk Hrnn Hrng.
  set (sw := sorted_words (corpus_tokens all_text_data)) in *.
  assert (length (enumerate sw) = length sw) as Hsw
    by (unfold enumerate; by rewrite length_imap).
  rewrite Hsw in *.
  assert (prime_word ∈ sw) as [prime_id Hi]%list_elem_of_lookup
    by (apply elem_of_sorted_words; by left).
  assert ("<PAD>" ∈ sw) as [pad_value Hp]%list_elem_of_lookup
    by (apply elem_of_sorted_words; by right).
  unfold Notebook.generated_script, Notebook.pad_word.
  rewrite (proj2 (dict_get_swap_enumerate sw prime_word prime_id
                    (NoDup_sorted_words _)) Hi).
  rewrite (proj2 (dict_get_swap_enumerate sw "<PAD>" pad_value
                    (NoDup_sorted_words _)) Hp).
  cbn [lookup_or bind].
  unfold generate.
  destruct (generate_state_inr sequence_length rnn rng (enumerate sw)
              prime_id pad_value gen_length) as [[w predicted] ->];
    [done| | |done|].
  - rewrite dict_get_enumerate, Hi. by eexists.
  - intros w Hw. destruct (Hrnn w Hw) as [-> Hpos]. split_and!; [done..|].
    intros j Hj. rewrite dict_get_enumerate. by apply lookup_lt_is_Some_2.
  - cbn [bind]. by eexists.
Qed.

Lemma generated_script_total_witness :
  ∃ text,
    Notebook.generated_script 20 400 "cat" uniform5 (λ _, Q2Qc (7 # 10))
      [("a", 0); ("cat", 1); ("sat", 2); ("<period>", 3); ("<PAD>", 4)]
      [(0, "a"); (1, "cat"); (2, "sat"); (3, "<period>"); (4, "<PAD>")]
      token_lookup = inr text.
Proof.
  apply (generated_script_total
           "a cat sat. a cat sat. a cat sat. a cat sat."
           [0; 1; 2; 3; 0; 1; 2; 3; 0; 1; 2; 3; 0; 1; 2; 3]).
  - reflexivity.
  - by vm_compute; apply list_elem_of_further, list_elem_of_here.
  - lia.
  - reflexivity.
  - intros w _. split; [reflexivity|by repeat constructor].
  - done.
Defined.

End pipeline_total.

(** ** The file that [load_model] loads *)
Section load_model.
Implicit Types (c a : ascii) (s t p dir name filename : string) (n i : nat).

Lemma rfind_None c s : Files.rfind c s = None ↔ has_char c s = false.
Proof.
  induction s as [|a s IH]; [done|]. simpl.
  destruct (Files.rfind c s) as [i|].
  - split; [done|]. intros [_ Hs]%orb_false_iff. by apply IH in Hs.
  - rewrite (proj1 IH) by done. rewrite orb_false_r.
    destruct (decide (a = c)) as [->|Hne].
    + by rewrite bool_decide_eq_true_2.
    + by rewrite bool_decide_eq_false_2.
Qed.

(** The last occurrence of a character that the rest does not have. *)
Lemma rfind_app c s t :
  has_char c t = false → Files.rfind c (s +:+ String c t) = Some (String.length s).
Proof.
  intros Ht%rfind_None. induction s as [|a s IH].
  - rewrite str_app_nil_l. simpl. by rewrite Ht, decide_True.
  - rewrite str_app_cons. simpl. by rewrite IH.
Qed.

Lemma str_drop_app s c t :
  Files.str_drop (S (String.length s)) (s +:+ String c t) = t.
Proof. induction s as [|a s IH]; [done|]. by rewrite str_app_cons. Qed.

Lemma has_char_str_drop_rfind c s i :
  Files.rfind c s = Some i → has_char c (Files.str_drop (S i) s) = false.
Proof.
  revert i. induction s as [|a s IH]; intros i; [done|]. simpl.
  destruct (Files.rfind c s) as [j|] eqn:Hj.
  - intros [= <-]. by apply IH.
  - destruct (decide (a = c)); [|done]. intros [= <-].
    destruct s; by apply rfind_None.
Qed.

Lemma has_char_str_take c n s :
  has_char c s = false → has_char c (Files.str_take n s) = false.
Proof.
  revert n. induction s as [|a s IH]; intros [|n]; try done.
  simpl. intros [-> Hs]%orb_false_iff. by apply IH.
Qed.

Lemma has_char_basename p : has_char "/" (Files.basename p) = false.
Proof.
  unfold Files.basename. destruct (Files.rfind "/" p) as [i|] eqn:Hi.
  - by apply has_char_str_drop_rfind.
  - by apply rfind_None.
Qed.

Lemma has_char_splitext c p :
  has_char c p = false → has_char c (Files.splitext p).1 = false.
Proof.
  intros Hp. unfold Files.splitext.
  destruct (Files.rfind "." p) as [dotIndex|]; [|done]. cbv zeta.
  destruct (_ && _); [|done]. by apply has_char_str_take.
Qed.

Lemma basename_app dir name :
  has_char "/" name = false → Files.basename (dir +:+ "/" +:+ name) = name.
Proof.
  intros Hn. unfold Files.basename.
  change (dir +:+ "/" +:+ name) with (dir +:+ String "/" name).
  by rewrite rfind_app, str_drop_app.
Qed.

(** X17: the file that [load_model] loads, for an argument on which
    [os.path] does the same on every platform (no backslash, no colon, no
    slash at the start). Its name has no slash, so it is looked for in the
    working directory; the directory part of the argument plays no part;
    and for a name without dot and slash the file is that name followed by
    [.pt]. *)
Theorem load_model_save_filename dir name :
  portable (dir +:+ "/" +:+ name) = true →
  has_char "/" name = false →
  Files.save_filename (dir +:+ "/" +:+ name) = Files.save_filename name ∧
  has_char "/" (Files.save_filename (dir +:+ "/" +:+ name)) = false ∧
  (has_char "." name = false →
   Files.save_filename (dir +:+ "/" +:+ name) = name +:+ ".pt").
Proof.
  intros _ Hn. unfold Files.save_filename. rewrite basename_app by done.
  assert (Files.basename name = name) as ->.
  { unfold Files.basename. by rewrite (proj2 (rfind_None "/" name)). }
  split_and!; [done| |].
  - by rewrite has_char_app, has_char_splitext.
  - intros Hdot. unfold Files.splitext.
    by rewrite (proj2 (rfind_None "." name)).
Qed.

Lemma load_model_save_filename_witness :
  Files.save_filename ("./save" +:+ "/" +:+ "trained_rnn_trimmed")
  = Files.save_filename "trained_rnn_trimmed" ∧
  has_char "/" (Files.save_filename ("./save" +:+ "/" +:+ "trained_rnn_trimmed"))
  = false ∧
  (has_char "." "trained_rnn_trimmed" = false →
   Files.save_filename ("./save" +:+ "/" +:+ "trained_rnn_trimmed")
   = "trained_rnn_trimmed" +:+ ".pt").
Proof. apply load_model_save_filename; reflexivity. Defined.

End load_model.

(** ** [clean_text] of the generation notebook *)
Section rendered.
Implicit Types (c a : ascii) (s t k q b v old new rest : string)
  (ps ts : list string) (P : dict string string).

Lemma join_empty_cons q ps : join "" (q :: ps) = q +:+ join "" ps.
Proof. destruct ps; [by rewrite str_app_nil_r|done]. Qed.

Lemma join_space_pieces t ts :
  join " " (t :: ts) = join "" (t :: (String " " <$> ts)).
Proof.
  revert t. induction ts as [|t' ts IH]; intros t; [done|].
  change (join " " (t :: t' :: ts)) with (t +:+ String " " (join " " (t' :: ts))).
  rewrite fmap_cons, IH, !join_empty_cons. by rewrite str_app_cons.
Qed.

Lemma prefix_app_self k rest : String.prefix k (k +:+ rest) = true.
Proof.
  induction k as [|a k IH]; [by destruct rest|]. rewrite str_app_cons. simpl.
  by destruct (ascii_dec a a).
Qed.

Lemma prefix_clash k q rest :
  clash k q = true → String.prefix k (q +:+ rest) = false.
Proof.
  revert q. induction k as [|a k IH]; intros [|c q]; try done.
  rewrite str_app_cons. simpl.
  destruct (decide (a = c)) as [->|Hne], (ascii_dec _ c); try done.
  apply IH.
Qed.

Lemma clash_irrefl k : clash k k = false.
Proof. induction k as [|a k IH]; [done|]. simpl. by rewrite decide_True. Qed.

Lemma replace_scan_skip old new s rest :
  replace_scan old new (String.length s) (s +:+ rest) = replace_scan old new 0 rest.
Proof. induction s as [|a s IH]; [done|]. by rewrite str_app_cons. Qed.

(** The pattern at the head of the text is replaced, and the scan goes on
    after it. *)
Lemma replace_scan_self a k new rest :
  replace_scan (String a k) new 0 (String a k +:+ rest)
  = new +:+ replace_scan (String a k) new 0 rest.
Proof.
  rewrite str_app_cons, replace_scan_cons.
  rewrite <-(str_app_cons a k rest), prefix_app_self. cbn [String.length].
  replace (S (String.length k) - 1) with (String.length k) by lia.
  by rewrite replace_scan_skip.
Qed.

(** A pattern that starts with a space is not found in a run of characters
    that are no spaces. *)
Lemma replace_scan_nospace b new q rest :
  has_char " " q = false →
  replace_scan (String " " b) new 0 (q +:+ rest)
  = q +:+ replace_scan (String " " b) new 0 rest.
Proof.
  induction q as [|c q IH]; [done|]. intros [Hc Hq]%orb_false_iff.
  apply bool_decide_eq_false in Hc.
  rewrite !str_app_cons, replace_scan_cons. cbn [String.prefix].
  destruct (ascii_dec " " c) as [<-|_]; [done|]. by rewrite IH.
Qed.

(** One pass of the loop over a text made of such pieces: the pieces that
    are the pattern are replaced, the others stay. *)
Lemma replace_pieces b new ps :
  Forall (piece_ok (String " " b)) ps →
  replace (String " " b) new (join "" ps)
  = join "" ((λ q, if decide (q = String " " b) then new else q) <$> ps).
Proof.
  unfold replace. induction 1 as [|q ps Hq _ IH]; [done|].
  rewrite fmap_cons, !join_empty_cons.
  destruct Hq as [Hns|[->|(body & -> & Hb & Hc)]].
  - rewrite replace_scan_nospace, IH by done.
    rewrite decide_False; [done|]. by intros ->.
  - by rewrite replace_scan_self, IH, decide_True.
  - rewrite str_app_cons, replace_scan_cons.
    rewrite <-(str_app_cons " " body (join "" ps)), prefix_clash by done.
    rewrite replace_scan_nospace, IH by done.
    rewrite decide_False; [done|]. intros Heq. rewrite Heq in Hc.
    by rewrite clash_irrefl in Hc.
Qed.

Lemma dict_get_nospace P v :
  Forall (λ kv, ∃ b, kv.1 = String " " b) P →
  has_char " " v = false → dict_get P v = None.
Proof.
  intros HP Hv. induction HP as [|[k x] P [b Hk] _ IH]; [done|].
  simpl in *. subst k. rewrite decide_False; [done|]. by intros <-.
Qed.

(** The whole loop: each piece that is a key has become the item of that
    key, the others stay. *)
Lemma substitute_pieces P ps :
  Forall (λ kv, ∃ b, kv.1 = String " " b) P →
  Forall (λ kv, has_char " " kv.2 = false) P →
  Forall (λ q, Forall (λ kv, piece_ok kv.1 q) P) ps →
  substitute (join "" ps) P = join "" ((λ q, default q (dict_get P q)) <$> ps).
Proof.
  intros HP. revert ps.
  induction HP as [|[k v] P [b Hk] HP IH]; intros ps Hv Hps.
  - simpl. f_equal. rewrite <-(list_fmap_id ps) at 1. done.
  - simpl in Hk. subst k. apply Forall_cons in Hv as [Hv HvP]. simpl in Hv.
    change (substitute (join "" ps) ((String " " b, v) :: P))
      with (substitute (replace (String " " b) v (join "" ps)) P).
    rewrite replace_pieces.
    2:{ eapply Forall_impl; [exact Hps|]. intros q Hq.
        by apply Forall_inv in Hq. }
    rewrite IH; [|done|].
    + rewrite <-list_fmap_compose. f_equal. apply list_fmap_ext.
      intros _ q _. unfold compose. cbn [dict_get].
      destruct (decide (q = String " " b)) as [->|Hne].
      * rewrite decide_True by done. by rewrite dict_get_nospace.
      * by rewrite decide_False by done.
    + apply Forall_fmap. eapply Forall_impl; [exact Hps|]. intros q Hq.
      simpl. apply Forall_inv_tail in Hq.
      destruct (decide (q = String " " b)); [|done].
      apply Forall_forall. intros kv _. by left.
Qed.

Lemma token_lookup_keys :
  Forall (λ kv : string * string, ∃ b, kv.1 = String " " (String "<" b))
         Notebook.token_lookup.
Proof. repeat constructor; eexists; reflexivity. Qed.

(** A token is a piece for every key of [token_lookup] when it has no
    [<], and when it is a placeholder. *)
Lemma token_piece_ok t :
  wordlike t →
  has_char "<" t = false ∨ String " " t ∈ keys Notebook.token_lookup →
  Forall (λ kv, piece_ok kv.1 (String " " t)) Notebook.token_lookup.
Proof.
  intros [Hne Hns] Ht.
  assert (has_char " " t = false) as Hsp.
  { destruct (has_char " " t) eqn:Hc; [|done]. by apply Hns in Hc. }
  destruct Ht as [Ht|Ht].
  - eapply Forall_impl; [apply token_lookup_keys|].
    intros [k v] [b Hk]. simpl in Hk. subst k. right. right.
    exists t. split_and!; [done..|].
    destruct t as [|c t]; [done|]. simpl in Ht.
    apply orb_false_iff in Ht as [Hc%bool_decide_eq_false _].
    simpl. by rewrite decide_False by congruence.
  - assert (Forall (λ kv : string * string,
                      kv.1 = String " " t ∨ clash kv.1 (String " " t) = true)
                   Notebook.token_lookup) as Hall.
    { replace (keys Notebook.token_lookup)
        with [" <period>"; " <exclamation_mark>"; " <question_mark>"; " <comma>";
              " <quotation_mark>"; " <semicolon>"; " <left_paren>";
              " <right_paren>"; " <dash>"; " <new_line>"] in Ht by reflexivity.
      repeat (apply elem_of_cons in Ht as [[= ->]|Ht]; [compute_done|]).
      by apply elem_of_nil in Ht. }
    eapply Forall_impl; [exact Hall|]. intros [k v] [Hk|Hk]; simpl in Hk.
    + right. by left.
    + right. right. by exists t.
Qed.

Lemma pad_piece_ok :
  Forall (λ kv : string * string, piece_ok kv.1 " <PAD>") Notebook.token_lookup.
Proof.
  assert (Forall (λ kv : string * string, clash kv.1 " <PAD>" = true)
                 Notebook.token_lookup) as Hall by compute_done.
  eapply Forall_impl; [exact Hall|]. intros [k v] Hk. right. right.
  by exists "<PAD>".
Qed.

Lemma clean_text_pieces t0 ts :
  has_char " " t0 = false →
  Forall (λ t, Forall (λ kv, piece_ok kv.1 (String " " t)) Notebook.token_lookup)
         ts →
  Notebook.clean_text (join " " (t0 :: ts))
  = lower t0 +:+ join "" (render <$> ts).
Proof.
  intros Hsp Hts.
  assert (Forall (λ kv : string * string, ∃ b, kv.1 = String " " b)
                 Notebook.token_lookup) as Hkeys.
  { eapply Forall_impl; [apply token_lookup_keys|]. intros kv [b ->]. by eexists. }
  unfold Notebook.clean_text. cbv zeta.
  fold (substitute (join " " (t0 :: ts)) Notebook.token_lookup).
  rewrite join_space_pieces, substitute_pieces; [|done|by repeat constructor|].
  - rewrite fmap_cons, join_empty_cons, lower_app.
    rewrite dict_get_nospace by done. cbn [default]. f_equal.
    rewrite lower_join, <-!list_fmap_compose. f_equal.
    apply list_fmap_ext. intros _ t _. unfold compose, render.
    destruct (dict_get _ (String " " t)) as [v|] eqn:Hv; [|done]. simpl.
    apply dict_get_Some_elem in Hv.
    repeat (apply elem_of_cons in Hv as [[= _ ->]|Hv]; [done|]).
    by apply elem_of_nil in Hv.
  - constructor; [|by apply Forall_fmap].
    apply Forall_forall. intros kv _. by left.
Qed.

Lemma nospace_has_char t : nospace t → has_char " " t = false.
Proof. intros Hns. destruct (has_char " " t) eqn:Hc; [|done]. by apply Hns in Hc. Qed.

(** X18: what [clean_text] of the generation notebook makes of tokens joined
    by single spaces, when every token after the first is a placeholder
    ([<period>], [<comma>], ...) or has no [<]: the first token in lower
    case, then for each placeholder its punctuation, put right after what
    comes before it, and for each other token a space and the token in lower
    case. *)
Theorem clean_text_renders t0 ts :
  nospace t0 →
  Forall (λ t, wordlike t ∧
               (has_char "<" t = false
                ∨ String " " t ∈ keys Notebook.token_lookup)) ts →
  Notebook.clean_text (join " " (t0 :: ts))
  = lower t0 +:+ join "" (render <$> ts).
Proof.
  intros H0 Hts. apply clean_text_pieces; [by apply nospace_has_char|].
  eapply Forall_impl; [exact Hts|]. intros t [Hw Ht]. by apply token_piece_ok.
Qed.

Lemma clean_text_renders_witness :
  Notebook.clean_text (join " " ("There" :: ["<comma>"; "and"; "then"; "<period>"]))
  = lower "There" +:+ join "" (render <$> ["<comma>"; "and"; "then"; "<period>"]).
Proof.
  apply clean_text_renders.
  - apply (Forall_inv (split_wordlike "There")).
  - apply Forall_forall. intros t Ht. split.
    + pose proof (split_wordlike "<comma> and then <period>") as Hall.
      rewrite Forall_forall in Hall. by apply Hall.
    + repeat (apply elem_of_cons in Ht as [->|Ht];
              [first [by left|right; compute_done]|]).
      by apply elem_of_nil in Ht.
Defined.

End rendered.

(** ** The tokens of the corpus and the placeholders *)
Section placeholders.
Implicit Types (c x : ascii) (s t q v w k new rest text : string)
  (ps atoms : list string) (P : dict string string).

Lemma join_chars s : join "" (chars s) = s.
Proof.
  induction s as [|c s IH]; [done|].
  cbn [chars]. by rewrite join_empty_cons, IH.
Qed.

Lemma elem_of_chars q s : q ∈ chars s → ∃ x, q = String x "" ∧ has_char x s = true.
Proof.
  induction s as [|c s IH]; simpl; [by intros ?%elem_of_nil|].
  intros [->|Hq]%elem_of_cons.
  - exists c. by rewrite bool_decide_eq_true_2.
  - destruct (IH Hq) as (x & -> & Hx). exists x. by rewrite Hx, orb_true_r.
Qed.

(** A pattern is not found in a run of characters that lacks its first
    character. *)
Lemma replace_scan_lacks c k new q rest :
  has_char c q = false →
  replace_scan (String c k) new 0 (q +:+ rest)
  = q +:+ replace_scan (String c k) new 0 rest.
Proof.
  induction q as [|x q IH]; [done|]. intros [Hx Hq]%orb_false_iff.
  apply bool_decide_eq_false in Hx.
  rewrite !str_app_cons, replace_scan_cons. cbn [String.prefix].
  destruct (ascii_dec c x) as [<-|_]; [done|]. by rewrite IH.
Qed.

(** One pass of the loop of [clean_text] for a key of one character, over a
    text made of pieces that are the key or lack it. *)
Lemma replace_char_pieces c new ps :
  Forall (λ q, q = String c "" ∨ has_char c q = false) ps →
  replace (String c "") new (join "" ps)
  = join "" ((λ q, if decide (q = String c "") then new else q) <$> ps).
Proof.
  unfold replace. induction 1 as [|q ps Hq _ IH]; [done|].
  rewrite fmap_cons, !join_empty_cons. destruct Hq as [->|Hq].
  - by rewrite replace_scan_self, IH, decide_True.
  - rewrite replace_scan_lacks, IH by done.
    rewrite decide_False; [done|]. intros ->. simpl in Hq.
    by rewrite bool_decide_eq_true_2 in Hq.
Qed.

Lemma dict_get_outside P v :
  Forall (λ kv, ∃ c, kv.1 = String c "") P →
  Forall (λ kv, chars_outside kv.1 v = true) P →
  dict_get P v = None.
Proof.
  intros HP. induction HP as [|[k x] P [c Hk] _ IH]; [done|].
  intros [Hv HvP]%Forall_cons. simpl in *. subst k.
  rewrite decide_False; [by apply IH|]. intros <-. simpl in Hv.
  by rewrite bool_decide_eq_true_2 in Hv.
Qed.

(** The whole loop, for keys of one character whose items have none of the
    characters that are keys: every character that is a key has become the
    item of that key, the others stay. *)
Lemma substitute_chars P ps :
  Forall (λ kv, ∃ c, kv.1 = String c "") P →
  Forall (λ kv', Forall (λ kv, chars_outside kv.1 kv'.2 = true) P) P →
  Forall (λ q, (∃ x, q = String x "")
               ∨ Forall (λ kv, chars_outside kv.1 q = true) P) ps →
  substitute (join "" ps) P = join "" ((λ q, default q (dict_get P q)) <$> ps).
Proof.
  intros HP. revert ps.
  induction HP as [|[k v] P [c Hk] HP IH]; intros ps Hv Hps.
  - simpl. f_equal. rewrite <-(list_fmap_id ps) at 1. done.
  - simpl in Hk. subst k. apply Forall_cons in Hv as [Hv HvP].
    apply Forall_inv_tail in Hv. simpl in Hv.
    assert (Forall (λ kv', Forall (λ kv, chars_outside kv.1 kv'.2 = true) P) P)
      as HvP'.
    { eapply Forall_impl; [exact HvP|]. intros kv' Hkv'.
      by apply Forall_inv_tail in Hkv'. }
    change (substitute (join "" ps) ((String c "", v) :: P))
      with (substitute (replace (String c "") v (join "" ps)) P).
    rewrite replace_char_pieces.
    2:{ eapply Forall_impl; [exact Hps|]. intros q [[x ->]|Hq].
        - destruct (decide (x = c)) as [->|Hne]; [by left|right].
          simpl. rewrite orb_false_r. by apply bool_decide_eq_false.
        - right. apply Forall_inv in Hq. simpl in Hq.
          rewrite andb_true_r in Hq. by apply negb_true_iff. }
    rewrite IH; [|done|].
    + rewrite <-list_fmap_compose. f_equal. apply list_fmap_ext.
      intros _ q _. unfold compose. cbn [dict_get].
      destruct (decide (q = String c "")) as [->|Hne].
      * rewrite decide_True by done. by rewrite dict_get_outside.
      * by rewrite decide_False by done.
    + apply Forall_fmap. eapply Forall_impl; [exact Hps|]. intros q Hq.
      simpl. destruct (decide (q = String c "")); [by right|].
      destruct Hq as [?|Hq]; [by left|right]. by apply Forall_inv_tail in Hq.
Qed.

(** The loop of [clean_text] with [token_lookup], character by character. *)
Lemma substitute_token_lookup text :
  substitute text token_lookup
  = join "" ((λ q, default q (dict_get (dict_del token_lookup "???") q))
               <$> chars text).
Proof.
  transitivity (substitute text (dict_del token_lookup "???")).
  { apply (substitute_dead_entry "?" text
             [(".", " <PERIOD> "); ("!", " <EXCLAMATION_MARK> ")]
             " <QUESTION_MARK> "
             [(",", " <COMMA> "); (String "034" "", " <QUOTATION_MARK> ");
              (";", " <SEMICOLON> "); ("(", " <LEFT_PAREN> ");
              (")", " <RIGHT_PAREN> "); ("-", " <DASH> ")]
             "???" " <DASH> "
             [(String "010" "", " <NEW_LINE> ")]);
      [done|by repeat constructor|done]. }
  rewrite <-(join_chars text) at 1. apply substitute_chars.
  - repeat constructor; eexists; reflexivity.
  - compute_done.
  - apply Forall_forall. intros q (x & -> & _)%elem_of_chars. left. by eexists.
Qed.

(** Every placeholder of [token_lookup] is one word between two spaces,
    and that word in lower case, after a space, is a key of the generation
    notebook's [token_lookup]. *)
Lemma token_lookup_placeholders :
  Forall (λ v, v = String " " (placeholder_word v +:+ " ") ∧
               split (placeholder_word v) = [placeholder_word v] ∧
               String " " (lower (placeholder_word v))
               ∈ keys Notebook.token_lookup)
         (dict_del token_lookup "???").*2.
Proof. compute_done. Qed.

(** The words of a text made of placeholders and of single characters
    other than [<]. *)
Lemma split_scan_atoms atoms :
  Forall (λ q, (∃ x, q = String x "" ∧ x ≠ "<"%char)
               ∨ q ∈ (dict_del token_lookup "???").*2) atoms →
  has_char "<" (split_scan (join "" atoms)).1 = false ∧
  Forall (λ w, has_char "<" w = false
               ∨ String " " (lower w) ∈ keys Notebook.token_lookup)
         (split_scan (join "" atoms)).2.
Proof.
  induction 1 as [|q atoms Hq _ [IH1 IH2]]; [by split|].
  assert (Forall (λ w, has_char "<" w = false
                       ∨ String " " (lower w) ∈ keys Notebook.token_lookup)
                 (split (join "" atoms))) as Hsplit.
  { rewrite split_eq. apply Forall_cons_word; [by left|done]. }
  rewrite join_empty_cons. destruct Hq as [(x & -> & Hx)|Hq].
  - rewrite str_app_cons, str_app_nil_l, split_scan_cons.
    destruct (isspace x); [done|]. split; [|done].
    simpl. rewrite IH1, orb_false_r. by apply bool_decide_eq_false.
  - pose proof token_lookup_placeholders as Hall.
    rewrite Forall_forall in Hall. destruct (Hall q Hq) as (Hv & Hw & Hk).
    set (body := placeholder_word q) in *. rewrite Hv.
    rewrite str_app_cons, str_app_assoc, split_scan_cons.
    change (isspace " ") with true. cbv iota. split; [done|].
    change (" " +:+ join "" atoms) with (String " " (join "" atoms)).
    rewrite split_app_space, Hw by done. constructor; [by right|done].
Qed.

(** The words of the text after the loop of [clean_text], for a text
    without [<]. *)
Lemma split_substitute_token_lookup text :
  has_char "<" text = false →
  Forall (λ w, has_char "<" w = false
               ∨ String " " (lower w) ∈ keys Notebook.token_lookup)
         (split (substitute text token_lookup)).
Proof.
  intros Htext. rewrite substitute_token_lookup, split_eq.
  set (P := dict_del token_lookup "???").
  destruct (split_scan_atoms ((λ q, default q (dict_get P q)) <$> chars text))
    as [H1 H2].
  { apply Forall_fmap, Forall_forall. intros q (x & -> & Hx)%elem_of_chars.
    unfold compose. cbv beta.
    destruct (dict_get P (String x "")) as [v|] eqn:Hv; cbn [default].
    - right. apply dict_get_Some_elem in Hv.
      apply list_elem_of_fmap. exists (String x "", v). split; [done|exact Hv].
    - left. exists x. split; [done|]. intros ->. by rewrite Hx in Htext. }
  apply Forall_cons_word; [by left|done].
Qed.

Lemma has_char_lower_mark c w :
  islower c = false → has_char c w = false → has_char c (lower w) = false.
Proof.
  intros Hc Hw. destruct (has_char c (lower w)) eqn:Hl; [|done].
  apply has_char_lower in Hl as (a & Ha & Hac).
  apply lower_char_fixes in Hac; [|done]. subst a. by rewrite Ha in Hw.
Qed.

(** The words of the cleaned text, for a text without [<]. *)
Lemma split_clean_text_token_lookup text :
  has_char "<" text = false →
  Forall (λ t, has_char "<" t = false
               ∨ String " " t ∈ keys Notebook.token_lookup)
         (split (clean_text text token_lookup)).
Proof.
  intros Htext. unfold clean_text. fold (substitute text token_lookup).
  rewrite split_lower, split_join by apply split_wordlike.
  apply Forall_fmap.
  eapply Forall_impl; [by apply split_substitute_token_lookup|].
  intros w [Hlt|Hk]; [left|by right]. by apply has_char_lower_mark.
Qed.

(** X19: the two [token_lookup] of the notebooks fit together. In the
    corpus of a text without [<], every token with a [<] is a placeholder
    that [clean_text] of the generation notebook turns back into
    punctuation: after a space, it is a key of that notebook's
    [token_lookup]. *)
Theorem corpus_tokens_placeholders all_text_data :
  has_char "<" all_text_data = false →
  Forall (λ t, has_char "<" t = false
               ∨ String " " t ∈ keys Notebook.token_lookup)
         (corpus_tokens all_text_data).
Proof.
  intros Htext. unfold corpus_tokens. rewrite filter_text_eq.
  apply Forall_forall. intros t [_ Ht]%list_elem_of_filter.
  pose proof (split_clean_text_token_lookup all_text_data Htext) as Hall.
  rewrite Forall_forall in Hall. by apply Hall.
Qed.

Lemma corpus_tokens_placeholders_witness :
  Forall (λ t, has_char "<" t = false
               ∨ String " " t ∈ keys Notebook.token_lookup)
         (corpus_tokens "a cat sat. a cat sat. a cat sat. a cat sat.").
Proof. apply corpus_tokens_placeholders. reflexivity. Defined.

(** X20: the script that the last cell prints, run on what
    [preprocess_and_save_data] saved for a text without [<]: the prime word,
    then for each of the [gen_length] sampled words of the vocabulary its
    punctuation when it is a placeholder, else a space and the word. *)
Theorem generated_script_rendered
    all_text_data int_text vocab_to_int int_to_vocab token_dict
    sequence_length gen_length prime_word
    (rnn : list nat → list Qc) (rng : nat → Qc) text :
  preprocess_and_save_data all_text_data
  = Some (int_text, vocab_to_int, int_to_vocab, token_dict) →
  has_char "<" all_text_data = false →
  Notebook.generated_script sequence_length gen_length prime_word rnn rng
    vocab_to_int int_to_vocab token_dict = inr text →
  ∃ words,
    length words = gen_length ∧
    Forall (λ w, w ∈ corpus_tokens all_text_data ∨ w = "<PAD>") words ∧
    text = lower prime_word +:+ join "" (render <$> words).
Proof.
  intros (-> & -> & ->)%preprocess_and_save_data_tables Htext.
  intros (words & Hlen & Hall & ->)%generated_script_words.
  exists words.
  assert (∀ w, w ∈ corpus_tokens all_text_data ∨ w = "<PAD>" → wordlike w) as Hwl.
  { intros w Hw. by apply elem_of_sorted_words,
      sorted_words_corpus_tokens in Hw as [? _]. }
  apply Forall_cons in Hall as [Hprime Hall]. split_and!; [done..|].
  apply clean_text_pieces.
  - apply nospace_has_char. by apply Hwl in Hprime as [_ ?].
  - eapply Forall_impl; [exact Hall|]. intros w Hw.
    destruct Hw as [Hw| ->]; [|apply pad_piece_ok].
    apply token_piece_ok; [apply Hwl; by left|].
    unfold corpus_tokens in Hw. rewrite filter_text_eq in Hw.
    apply list_elem_of_filter in Hw as [_ Hw].
    pose proof (split_clean_text_token_lookup all_text_data Htext) as Hshape.
    rewrite Forall_forall in Hshape. by apply Hshape.
Qed.

Lemma generated_script_rendered_witness :
  ∃ words,
    length words = 4 ∧
    Forall (λ w, w ∈ corpus_tokens "a cat sat. a cat sat. a cat sat. a cat sat."
                 ∨ w = "<PAD>") words ∧
    "cat...." = lower "cat" +:+ join "" (render <$> words).
Proof.
  apply (generated_script_rendered
           "a cat sat. a cat sat. a cat sat. a cat sat."
           [0; 1; 2; 3; 0; 1; 2; 3; 0; 1; 2; 3; 0; 1; 2; 3]
           [("a", 0); ("cat", 1); ("sat", 2); ("<period>", 3); ("<PAD>", 4)]
           [(0, "a"); (1, "cat"); (2, "sat"); (3, "<period>"); (4, "<PAD>")]
           token_lookup 3 4 "cat" peaked (λ _, 0%Qc));
    reflexivity.
Defined.

End placeholders.

(** ** A vocabulary of fewer than [top_k] words *)
Section too_few_ids.

(** X21: [top_k] is fixed at 5 whatever the vocabulary. Run on what
    [preprocess_and_save_data] saved for a corpus whose vocabulary, the
    padding token included, has fewer than [top_k] words, with a network
    that gives every window one probability per word, the last cell raises
    the [RuntimeError] of [topk] in the first pass of [generate], for every
    prime word of the corpus and every [gen_length] other than 0. *)
Theorem generated_script_small_vocabulary
    all_text_data int_text vocab_to_int int_to_vocab token_dict
    sequence_length gen_length prime_word
    (rnn : list nat → list Qc) (rng : nat → Qc) :
  preprocess_and_save_data all_text_data
  = Some (int_text, vocab_to_int, int_to_vocab, token_dict) →
  length int_to_vocab < top_k →
  prime_word ∈ corpus_tokens all_text_data →
  0 < sequence_length →
  (∀ w : list nat, length w = sequence_length →
     length (rnn w) = length int_to_vocab) →
  0 < gen_length →
  Notebook.generated_script sequence_length gen_length prime_word rnn rng
    vocab_to_int int_to_vocab token_dict = inl RuntimeError.
Proof.
  intros (-> & -> & ->)%preprocess_and_save_data_tables Hk Hprime Hlen Hrnn Hgen.
  set (sw := sorted_words (corpus_tokens all_text_data)) in *.
  assert (prime_word ∈ sw) as [prime_id Hi]%list_elem_of_lookup
    by (apply elem_of_sorted_words; by left).
  assert ("<PAD>" ∈ sw) as [pad_value Hp]%list_elem_of_lookup
    by (apply elem_of_sorted_words; by right).
  unfold Notebook.generated_script, Notebook.pad_word.
  rewrite (proj2 (dict_get_swap_enumerate sw prime_word prime_id
                    (NoDup_sorted_words _)) Hi).
  rewrite (proj2 (dict_get_swap_enumerate sw "<PAD>" pad_value
                    (NoDup_sorted_words _)) Hp).
  cbn [lookup_or bind]. unfold generate, generate_state.
  rewrite generate_init_eq. destruct sequence_length as [|n]; [lia|].
  rewrite dict_get_enumerate, Hi. cbn [bind].
  destruct gen_length as [|m]; [lia|]. cbn [generate_loop].
  unfold generate_step at 1. unfold topk.
  rewrite decide_False; [done|].
  rewrite Hrnn by (rewrite length_app, length_replicate; simpl; lia). lia.
Qed.

Lemma generated_script_small_vocabulary_witness :
  Notebook.generated_script 3 2 "cat" (stub 4) (λ _, 0%Qc)
    [("a", 0); ("cat", 1); ("<period>", 2); ("<PAD>", 3)]
    [(0, "a"); (1, "cat"); (2, "<period>"); (3, "<PAD>")]
    token_lookup = inl RuntimeError.
Proof.
  apply (generated_script_small_vocabulary
           "a cat. a cat. a cat. a cat."
           [0; 1; 2; 0; 1; 2; 0; 1; 2; 0; 1; 2]).
  - reflexivity.
  - vm_compute. lia.
  - by vm_compute; apply list_elem_of_further, list_elem_of_here.
  - lia.
  - intros w _. reflexivity.
  - lia.
Defined.

End too_few_ids.
